(** * OAuth2 permission sub-resources of an Azure AD application

    A shallow embedding of the lifecycle operations of
    [azuread_application_oauth2_permission]
    (internal/services/aadgraph/application_oauth2_permission_resource.go)
    and of the list look-ups [usersDataRead] and [GroupsDataRead],
    together with the properties the specification states about them. *)

From Stdlib Require Import Ascii String.
From stdpp Require Import base option list strings gmap.

Set Default Proof Using "Type".

(** ** Strings *)

(** [strip_prefix d s] is [Some rest] when [s = d +:+ rest]
    (Go: [strings.HasPrefix] followed by slicing). *)
Fixpoint strip_prefix (d s : string) : option string :=
  match d with
  | EmptyString => Some s
  | String c d' =>
      match s with
      | EmptyString => None
      | String c' s' => if decide (c = c') then strip_prefix d' s' else None
      end
  end.

(** [cut d s] splits [s] around the first occurrence of [d]
    (Go: [strings.Cut]). *)
Fixpoint cut (d s : string) : option (string * string) :=
  match strip_prefix d s with
  | Some rest => Some (EmptyString, rest)
  | None =>
      match s with
      | EmptyString => None
      | String c s' =>
          match cut d s' with
          | Some (a, b) => Some (String c a, b)
          | None => None
          end
      end
  end.





Definition is_empty (s : string) : bool := bool_decide (s = "").

(** ** The directory SDK's data (graphrbac) *)

Module graphrbac.

(** The fields the resource reads and writes; every one is a pointer in the
    SDK, [None] is the nil pointer. *)
Record OAuth2Permission := mkOAuth2Permission {
  AdminConsentDescription : option string;
  AdminConsentDisplayName : option string;
  ID : option string;
  IsEnabled : option bool;
  Type_ : option string;
  UserConsentDescription : option string;
  UserConsentDisplayName : option string;
  Value : option string
}.

(** The parent object.  Only its embedded collection is read; a nil slice
    pointer is the empty collection. *)
Record Application := mkApplication {
  Oauth2Permissions : list OAuth2Permission
}.

End graphrbac.

(** ** Package graph: the composite identifier and the collection reconciler *)

Module graph.

Record OAuth2PermissionId := mkOAuth2PermissionId {
  ObjectId : string;
  PermissionId : string
}.

Inductive Error :=
| MalformedIdentifier (idString : string)
| AlreadyExistsError (kind id : string)
| NotFoundError (id : string).

(** [graph.OAuth2PermissionIdFrom] as the resource calls it: it returns the
    identifier value itself and no error. *)
Definition OAuth2PermissionIdFrom (objectId permissionId : string) : OAuth2PermissionId :=
  {| ObjectId := objectId; PermissionId := permissionId |}.

Section CompositeIdentifier.
(** The delimiter of the serialized form is a constant of package graph; the
    development is parametric in it. *)
Variable delim : string.

(** Modelled from the spec: the [String] method of [graph.OAuth2PermissionId],
    declared in package graph.  "deterministic, reversible encoding (e.g.,
    delimiter-joined)". *)
Definition OAuth2PermissionId_String (id : OAuth2PermissionId) : string :=
  ObjectId id +:+ delim +:+ PermissionId id.

(** Modelled from the spec: [graph.ParseOAuth2PermissionId], declared in
    package graph.  "fails with MalformedIdentifier if the delimiter is
    absent or either part is empty"; the string is split at the first
    delimiter. *)
Definition ParseOAuth2PermissionId (idString : string) : Error + OAuth2PermissionId :=
  match cut delim idString with
  | None => inl (MalformedIdentifier idString)
  | Some (a, b) =>
      if is_empty a || is_empty b
      then inl (MalformedIdentifier idString)
      else inr {| ObjectId := a; PermissionId := b |}
  end.
End CompositeIdentifier.

Import graphrbac.

Definition has_id (permissionId : string) (v : OAuth2Permission) : bool :=
  bool_decide (ID v = Some permissionId).

Definition same_id (candidate v : OAuth2Permission) : bool :=
  bool_decide (ID v = ID candidate).

Definition subId (v : OAuth2Permission) : string := default "" (ID v).

(** Modelled from the spec: [graph.OAuth2PermissionFindById], declared in
    package graph.  "findById(collection, subId) -> Sub-resource | absent".
    The result is the pair the callers destructure; the spec gives the
    look-up no failure. *)
Definition OAuth2PermissionFindById (app : Application) (permissionId : string)
  : option OAuth2Permission * option Error :=
  (List.find (has_id permissionId) (Oauth2Permissions app), None).

(** Modelled from the spec: [graph.OAuth2PermissionAdd], declared in package
    graph.  "fails with AlreadyExists if candidate.subId already present;
    otherwise returns a new collection with candidate appended, preserving
    prior order". *)
Definition OAuth2PermissionAdd (existing : list OAuth2Permission)
    (permission : OAuth2Permission) : Error + list OAuth2Permission :=
  if existsb (same_id permission) existing
  then inl (AlreadyExistsError "OAuth2 Permission" (subId permission))
  else inr (existing ++ [permission]).

(** Modelled from the spec: [graph.OAuth2PermissionUpdate], declared in
    package graph.  "fails with NotFound if candidate.subId absent; otherwise
    returns a new collection with the matching entry replaced in place (same
    position), all other entries unchanged". *)
Definition OAuth2PermissionUpdate (existing : list OAuth2Permission)
    (permission : OAuth2Permission) : Error + list OAuth2Permission :=
  if existsb (same_id permission) existing
  then inr (List.map (λ v, if same_id permission v then permission else v) existing)
  else inl (NotFoundError (subId permission)).

Definition disabled (v : OAuth2Permission) : OAuth2Permission :=
  {| AdminConsentDescription := AdminConsentDescription v;
     AdminConsentDisplayName := AdminConsentDisplayName v;
     ID := ID v;
     IsEnabled := Some false;
     Type_ := Type_ v;
     UserConsentDescription := UserConsentDescription v;
     UserConsentDisplayName := UserConsentDisplayName v;
     Value := Value v |}.

(** Modelled from the spec: [graph.OAuth2PermissionResultDisableById],
    declared in package graph.  "fails with NotFound if absent; otherwise
    returns a collection identical except the matching entry's enabled flag
    set false". *)
Definition OAuth2PermissionResultDisableById (existing : list OAuth2Permission)
    (permissionId : string) : Error + list OAuth2Permission :=
  if existsb (has_id permissionId) existing
  then inr (List.map (λ v, if has_id permissionId v then disabled v else v) existing)
  else inl (NotFoundError permissionId).

(** Modelled from the spec: [graph.OAuth2PermissionResultRemoveById],
    declared in package graph.  "returns a collection with the matching
    entry excluded"; removing an absent entry succeeds ("remove is
    idempotent"). *)
Definition OAuth2PermissionResultRemoveById (existing : list OAuth2Permission)
    (permissionId : string) : Error + list OAuth2Permission :=
  inr (List.filter (λ v, negb (has_id permissionId v)) existing).

End graph.

Arguments graph.OAuth2PermissionFindById : simpl never.
Arguments graph.OAuth2PermissionAdd : simpl never.
Arguments graph.OAuth2PermissionUpdate : simpl never.
Arguments graph.OAuth2PermissionResultDisableById : simpl never.
Arguments graph.OAuth2PermissionResultRemoveById : simpl never.
Arguments graph.ParseOAuth2PermissionId : simpl never.
Arguments graph.OAuth2PermissionId_String : simpl never.


(** ** The effects of a lifecycle operation

    A lifecycle operation talks to the named-lock registry ([tf.LockByName],
    [tf.UnlockByName]), to the directory ([client.Get], [client.Patch]), to
    the UUID generator and to the log.  An operation is a tree of such calls:
    each node is one call, and its continuation receives what the callee
    answered.  The calls to the collection reconciler are pure; a [Reconcile]
    node marks the place of each. *)

Import graphrbac.

(** What [client.Get] answers: the application, a 404 response
    ([utils.ResponseWasNotFound]), or any other failure. *)
Inductive GetResp :=
| GetOk (app : Application)
| GetNotFound
| GetFailed.

Inductive PatchResp := PatchOk | PatchFailed.

Inductive UuidResp := UuidOk (id : string) | UuidFailed.

Inductive Reconciler := FnFindById | FnAdd | FnUpdate | FnDisableById | FnRemoveById.

Inductive LogMsg :=
| LogApplicationNotFound (objectId : string)
| LogPermissionNotFound (permissionId objectId : string)
| LogDisabling (permissionId objectId : string)
| LogRemoving (permissionId objectId : string).

Inductive Prog (R : Type) : Type :=
| Ret (r : R)
| LockByName (name key : string) (k : Prog R)
| UnlockByName (name key : string) (k : Prog R)
| ClientGet (objectId : string) (k : GetResp → Prog R)
| ClientPatch (objectId : string) (perms : list OAuth2Permission) (k : PatchResp → Prog R)
| GenerateUUID (k : UuidResp → Prog R)
| LogPrintf (msg : LogMsg) (k : Prog R)
| Reconcile (f : Reconciler) (k : Prog R).

Arguments Ret {R} r.
Arguments LockByName {R} name key k.
Arguments UnlockByName {R} name key k.
Arguments ClientGet {R} objectId k.
Arguments ClientPatch {R} objectId perms k.
Arguments GenerateUUID {R} k.
Arguments LogPrintf {R} msg k.
Arguments Reconcile {R} f k.

Fixpoint bind {A B : Type} (p : Prog A) (f : A → Prog B) : Prog B :=
  match p with
  | Ret r => f r
  | LockByName n key k => LockByName n key (bind k f)
  | UnlockByName n key k => UnlockByName n key (bind k f)
  | ClientGet oid k => ClientGet oid (λ resp, bind (k resp) f)
  | ClientPatch oid perms k => ClientPatch oid perms (λ resp, bind (k resp) f)
  | GenerateUUID k => GenerateUUID (λ resp, bind (k resp) f)
  | LogPrintf msg k => LogPrintf msg (bind k f)
  | Reconcile g k => Reconcile g (bind k f)
  end.

(** [defer tf.UnlockByName(name, key)]: the lock is given back on every exit
    path of [body], after its result is computed. *)
Definition locked {R : Type} (name key : string) (body : Prog R) : Prog R :=
  LockByName name key (bind body (λ r, UnlockByName name key (Ret r))).

(** ** The resource data of one permission ([schema.ResourceData]) *)

Record ResourceData := mkResourceData {
  Id : string;
  IsNewResource : bool;
  application_object_id : string;
  admin_consent_description : string;
  admin_consent_display_name : string;
  is_enabled : bool;
  permission_id : string;
  type_ : string;
  user_consent_description : string;
  user_consent_display_name : string;
  value : string
}.

Definition SetId (id : string) (d : ResourceData) : ResourceData :=
  {| Id := id;
     IsNewResource := IsNewResource d;
     application_object_id := application_object_id d;
     admin_consent_description := admin_consent_description d;
     admin_consent_display_name := admin_consent_display_name d;
     is_enabled := is_enabled d;
     permission_id := permission_id d;
     type_ := type_ d;
     user_consent_description := user_consent_description d;
     user_consent_display_name := user_consent_display_name d;
     value := value d |}.

(** The nine [d.Set] calls that end a successful read; [d.Set] stores the
    zero value for a nil pointer. *)
Definition SetPermission (id : graph.OAuth2PermissionId) (permission : OAuth2Permission)
    (d : ResourceData) : ResourceData :=
  {| Id := Id d;
     IsNewResource := IsNewResource d;
     application_object_id := graph.ObjectId id;
     admin_consent_description := default "" (AdminConsentDescription permission);
     admin_consent_display_name := default "" (AdminConsentDisplayName permission);
     is_enabled := default false (IsEnabled permission);
     permission_id := graph.PermissionId id;
     type_ := default "" (Type_ permission);
     user_consent_description := default "" (UserConsentDescription permission);
     user_consent_display_name := default "" (UserConsentDisplayName permission);
     value := default "" (Value permission) |}.

(** [d.GetOk("permission_id")]: set means different from the zero value. *)
Definition GetOk_permission_id (d : ResourceData) : option string :=
  if is_empty (permission_id d) then None else Some (permission_id d).

(** The errors the operations return, one constructor for each [fmt.Errorf]
    (and [tf.ImportAsExistsError]) of the resource. *)
Inductive Err :=
| ErrGeneratingUUID (objectId : string)
| ErrApplicationNotFound (objectId : string)
| ErrRetrievingApplication (objectId : string)
| ErrImportAsExists (resourceName id : string)
| ErrAddingPermission (e : graph.Error)
| ErrPermissionNotFound (permissionId objectId : string)
| ErrUpdatingPermission (e : graph.Error)
| ErrPatchingApplication (objectId : string)
| ErrParsingId (e : graph.Error)
| ErrIdentifyingPermission (e : graph.Error)
| ErrCouldNotDisable (e : graph.Error)
| ErrCouldNotRemove (e : graph.Error).

(** A Go operation returns its [error] ([None] is nil) and leaves the
    resource data it was given updated. *)
Definition Result : Type := option Err * ResourceData.

(** ** The lifecycle operations *)

Module aadgraph.
Section Resource.
Variable delim : string.
(** The lock namespace of applications, a constant declared with the
    application resource. *)
Variable resourceApplicationName : string.

Definition permissionOf (d : ResourceData) (permissionId : string) : OAuth2Permission :=
  {| AdminConsentDescription := Some (admin_consent_description d);
     AdminConsentDisplayName := Some (admin_consent_display_name d);
     ID := Some permissionId;
     IsEnabled := Some (is_enabled d);
     Type_ := Some (type_ d);
     UserConsentDescription := Some (user_consent_description d);
     UserConsentDisplayName := Some (user_consent_display_name d);
     Value := Some (value d) |}.

Definition applicationOAuth2PermissionResourceRead (d : ResourceData) : Prog Result :=
  match graph.ParseOAuth2PermissionId delim (Id d) with
  | inl err => Ret (Some (ErrParsingId err), d)
  | inr id =>
      ClientGet (graph.ObjectId id) (λ resp,
        match resp with
        | GetNotFound =>
            LogPrintf (LogApplicationNotFound (graph.ObjectId id))
              (Ret (None, SetId "" d))
        | GetFailed => Ret (Some (ErrRetrievingApplication (graph.ObjectId id)), d)
        | GetOk app =>
            Reconcile FnFindById
              match graph.OAuth2PermissionFindById app (graph.PermissionId id) with
              | (_, Some err) => Ret (Some (ErrIdentifyingPermission err), d)
              | (None, None) =>
                  LogPrintf (LogPermissionNotFound (graph.PermissionId id) (graph.ObjectId id))
                    (Ret (None, SetId "" d))
              | (Some permission, None) => Ret (None, SetPermission id permission d)
              end
        end)
  end.

(** Lines 160-169: write the new collection back, record the identity,
    read the resource again. *)
Definition patchAndRead (d : ResourceData) (id : graph.OAuth2PermissionId)
    (newPermissions : list OAuth2Permission) : Prog Result :=
  ClientPatch (graph.ObjectId id) newPermissions (λ resp,
    match resp with
    | PatchFailed => Ret (Some (ErrPatchingApplication (graph.ObjectId id)), d)
    | PatchOk =>
        applicationOAuth2PermissionResourceRead
          (SetId (graph.OAuth2PermissionId_String delim id) d)
    end).

(** Lines 114-169, once the permission id is known. *)
Definition createUpdateWith (d : ResourceData) (permissionId : string) : Prog Result :=
  let objectId := application_object_id d in
  let permission := permissionOf d permissionId in
  let id := graph.OAuth2PermissionIdFrom objectId permissionId in
  locked resourceApplicationName (graph.ObjectId id)
    (ClientGet (graph.ObjectId id) (λ resp,
       match resp with
       | GetNotFound => Ret (Some (ErrApplicationNotFound (graph.ObjectId id)), d)
       | GetFailed => Ret (Some (ErrRetrievingApplication (graph.ObjectId id)), d)
       | GetOk app =>
           if IsNewResource d then
             Reconcile FnAdd
               match graph.OAuth2PermissionAdd (Oauth2Permissions app) permission with
               | inl (graph.AlreadyExistsError _ _) =>
                   Ret (Some (ErrImportAsExists "azuread_application_oauth2_permission"
                                (graph.OAuth2PermissionId_String delim id)), d)
               | inl err => Ret (Some (ErrAddingPermission err), d)
               | inr newPermissions => patchAndRead d id newPermissions
               end
           else
             Reconcile FnFindById
               match fst (graph.OAuth2PermissionFindById app (graph.PermissionId id)) with
               | None =>
                   Ret (Some (ErrPermissionNotFound (graph.PermissionId id) (graph.ObjectId id)), d)
               | Some _ =>
                   Reconcile FnUpdate
                     match graph.OAuth2PermissionUpdate (Oauth2Permissions app) permission with
                     | inl err => Ret (Some (ErrUpdatingPermission err), d)
                     | inr newPermissions => patchAndRead d id newPermissions
                     end
               end
       end)).

Definition applicationOAuth2PermissionResourceCreateUpdate (d : ResourceData) : Prog Result :=
  let objectId := application_object_id d in
  match GetOk_permission_id d with
  | Some v => createUpdateWith d v
  | None =>
      GenerateUUID (λ resp,
        match resp with
        | UuidFailed => Ret (Some (ErrGeneratingUUID objectId), d)
        | UuidOk pid => createUpdateWith d pid
        end)
  end.

Definition applicationOAuth2PermissionResourceDelete (d : ResourceData) : Prog Result :=
  match graph.ParseOAuth2PermissionId delim (Id d) with
  | inl err => Ret (Some (ErrParsingId err), d)
  | inr id =>
      locked resourceApplicationName (graph.ObjectId id)
        (ClientGet (graph.ObjectId id) (λ resp,
           match resp with
           | GetNotFound =>
               LogPrintf (LogApplicationNotFound (graph.ObjectId id)) (Ret (None, d))
           | GetFailed => Ret (Some (ErrRetrievingApplication (graph.ObjectId id)), d)
           | GetOk app =>
               LogPrintf (LogDisabling (graph.PermissionId id) (graph.ObjectId id))
                 (Reconcile FnDisableById
                    match graph.OAuth2PermissionResultDisableById
                            (Oauth2Permissions app) (graph.PermissionId id) with
                    | inl err => Ret (Some (ErrCouldNotDisable err), d)
                    | inr newPermissions =>
                        ClientPatch (graph.ObjectId id) newPermissions (λ resp1,
                          match resp1 with
                          | PatchFailed =>
                              Ret (Some (ErrPatchingApplication (graph.ObjectId id)), d)
                          | PatchOk =>
                              LogPrintf (LogRemoving (graph.PermissionId id) (graph.ObjectId id))
                                (Reconcile FnRemoveById
                                   match graph.OAuth2PermissionResultRemoveById
                                           (Oauth2Permissions app) (graph.PermissionId id) with
                                   | inl err => Ret (Some (ErrCouldNotRemove err), d)
                                   | inr newPermissions' =>
                                       ClientPatch (graph.ObjectId id) newPermissions' (λ resp2,
                                         match resp2 with
                                         | PatchFailed =>
                                             Ret (Some (ErrPatchingApplication (graph.ObjectId id)), d)
                                         | PatchOk => Ret (None, d)
                                         end)
                                   end)
                          end)
                    end)
           end))
  end.

End Resource.
End aadgraph.

(** ** One operation against an arbitrary directory

    An event is a call together with what it was answered.  The environment
    decides every answer from the events so far, so that nothing is assumed
    of the directory: any sequence of answers is the behaviour of some
    environment. *)

Inductive Event :=
| ELock (name key : string)
| EUnlock (name key : string)
| EGet (objectId : string) (resp : GetResp)
| EPatch (objectId : string) (perms : list OAuth2Permission) (resp : PatchResp)
| EUuid (resp : UuidResp)
| ELog (msg : LogMsg)
| EReconcile (f : Reconciler).

Record Env := mkEnv {
  env_get : list Event → string → GetResp;
  env_patch : list Event → string → list OAuth2Permission → PatchResp;
  env_uuid : list Event → UuidResp
}.

(** [run env p h] runs [p] after the events [h]; it returns all the events
    and the result of [p]. *)
Fixpoint run {R : Type} (env : Env) (p : Prog R) (h : list Event) : list Event * R :=
  match p with
  | Ret r => (h, r)
  | LockByName n key k => run env k (h ++ [ELock n key])
  | UnlockByName n key k => run env k (h ++ [EUnlock n key])
  | ClientGet oid k =>
      let resp := env_get env h oid in run env (k resp) (h ++ [EGet oid resp])
  | ClientPatch oid perms k =>
      let resp := env_patch env h oid perms in run env (k resp) (h ++ [EPatch oid perms resp])
  | GenerateUUID k =>
      let resp := env_uuid env h in run env (k resp) (h ++ [EUuid resp])
  | LogPrintf msg k => run env k (h ++ [ELog msg])
  | Reconcile f k => run env k (h ++ [EReconcile f])
  end.

Definition trace {R : Type} (env : Env) (p : Prog R) : list Event := fst (run env p []).
Definition result {R : Type} (env : Env) (p : Prog R) : R := snd (run env p []).

Definition is_lock (e : Event) : bool :=
  match e with ELock _ _ => true | _ => false end.
Definition is_unlock (e : Event) : bool :=
  match e with EUnlock _ _ => true | _ => false end.
Definition is_get (e : Event) : bool :=
  match e with EGet _ _ => true | _ => false end.
Definition is_patch (e : Event) : bool :=
  match e with EPatch _ _ _ => true | _ => false end.
Definition is_reconcile (e : Event) : bool :=
  match e with EReconcile _ => true | _ => false end.

(** The answer to the first fetch of the parent, if there was one. *)
Definition first_fetch (t : list Event) : option GetResp :=
  match List.find is_get t with
  | Some (EGet _ resp) => Some resp
  | _ => None
  end.

(** The calls that change the collection or the directory: reconciliations
    other than the look-up, and writes. *)
Definition is_mutation (e : Event) : bool :=
  match e with
  | EPatch _ _ _ => true
  | EReconcile FnFindById => false
  | EReconcile _ => true
  | _ => false
  end.

(** The two mutating operations of the resource.  Create and update are the
    same function; [IsNewResource] tells them apart. *)
Inductive Mutation := CreateUpdate | Delete.

Definition mutate (delim resourceApplicationName : string) (m : Mutation)
    (d : ResourceData) : Prog Result :=
  match m with
  | CreateUpdate =>
      aadgraph.applicationOAuth2PermissionResourceCreateUpdate delim resourceApplicationName d
  | Delete =>
      aadgraph.applicationOAuth2PermissionResourceDelete delim resourceApplicationName d
  end.

(** The permission id a create or update works on: the configured one, or
    else the one the generator hands out. *)
Definition chosen_permission_id (env : Env) (d : ResourceData) : option string :=
  match GetOk_permission_id d with
  | Some v => Some v
  | None =>
      match env_uuid env [] with
      | UuidOk pid => Some pid
      | UuidFailed => None
      end
  end.

(** Every two writes of a trace have a release of a lock between them. *)
Definition released_between_writes (t : list Event) : Prop :=
  ∀ i j ei ej,
    i < j → t !! i = Some ei → t !! j = Some ej →
    is_patch ei = true → is_patch ej = true →
    ∃ m em, i < m < j ∧ t !! m = Some em ∧ is_unlock em = true.

(** ** Two operations at once

    The directory holds the applications; the lock registry holds the names
    that are taken.  A caller takes one step at a time: one call of its
    operation.  [tf.LockByName] can only be taken when the name is free
    (a caller that finds it taken waits), the directory answers a fetch from
    what it holds, and a write replaces the collection of the application.
    Either remote call may also fail, at the scheduler's choice.  The UUID
    generator is asked at most once by an operation; what it answers a
    caller is fixed with the caller. *)

(** What the callers share: the keys of the lock registry that are held, and
    the applications of the directory. *)
Record Shared := mkShared {
  held : gset (string * string);
  directory : gmap string Application
}.

Record Choice := mkChoice {
  first_caller : bool;
  get_fails : bool;
  patch_fails : bool
}.

Definition fetch (dir : gmap string Application) (fails : bool) (objectId : string) : GetResp :=
  if fails then GetFailed
  else match dir !! objectId with
       | Some app => GetOk app
       | None => GetNotFound
       end.

(** Modelled from the spec: what [tf.LockByName] and [tf.UnlockByName],
    declared in package tf, do to the registry.  "blocks the calling
    execution until no other execution holds a handle for the same key":
    a caller at [LockByName] has no step while the key is held.  The other
    calls are those of the directory client and of the generator. *)
Definition step {R : Type} (gen : UuidResp) (c : Choice) (p : Prog R) (σ : Shared)
  : option (Prog R * Shared) :=
  match p with
  | Ret _ => None
  | LockByName n key k =>
      if decide ((n, key) ∈ held σ) then None
      else Some (k, mkShared ({[ (n, key) ]} ∪ held σ) (directory σ))
  | UnlockByName n key k =>
      Some (k, mkShared (held σ ∖ {[ (n, key) ]}) (directory σ))
  | ClientGet oid k => Some (k (fetch (directory σ) (get_fails c) oid), σ)
  | ClientPatch oid perms k =>
      if patch_fails c then Some (k PatchFailed, σ)
      else match directory σ !! oid with
           | None => Some (k PatchFailed, σ)
           | Some _ =>
               Some (k PatchOk,
                     mkShared (held σ) (<[oid := mkApplication perms]> (directory σ)))
           end
  | GenerateUUID k => Some (k gen, σ)
  | LogPrintf _ k => Some (k, σ)
  | Reconcile _ k => Some (k, σ)
  end.

Record Config := mkConfig {
  shared : Shared;
  callerA : Prog Result;
  callerB : Prog Result
}.

(** The scheduler picks a caller; a caller that is waiting for the lock, or
    has returned, does not move. *)
Definition cstep (genA genB : UuidResp) (c : Choice) (cfg : Config) : Config :=
  if first_caller c then
    match step genA c (callerA cfg) (shared cfg) with
    | Some (p, σ) => mkConfig σ p (callerB cfg)
    | None => cfg
    end
  else
    match step genB c (callerB cfg) (shared cfg) with
    | Some (p, σ) => mkConfig σ (callerA cfg) p
    | None => cfg
    end.

Definition crun (genA genB : UuidResp) (sched : list Choice) (cfg : Config) : Config :=
  fold_left (λ cfg c, cstep genA genB c cfg) sched cfg.

Definition returned {R : Type} (p : Prog R) : option R :=
  match p with
  | Ret r => Some r
  | _ => None
  end.

(** An operation with its lock calls taken out; it serves to show what the
    lock is for. *)
Fixpoint unlocked {R : Type} (p : Prog R) : Prog R :=
  match p with
  | Ret r => Ret r
  | LockByName _ _ k => unlocked k
  | UnlockByName _ _ k => unlocked k
  | ClientGet oid k => ClientGet oid (λ resp, unlocked (k resp))
  | ClientPatch oid perms k => ClientPatch oid perms (λ resp, unlocked (k resp))
  | GenerateUUID k => GenerateUUID (λ resp, unlocked (k resp))
  | LogPrintf msg k => LogPrintf msg (unlocked k)
  | Reconcile f k => Reconcile f (unlocked k)
  end.

(** The collection of an application in the directory. *)
Definition collection (dir : gmap string Application) (objectId : string)
    : list OAuth2Permission :=
  match dir !! objectId with
  | Some app => Oauth2Permissions app
  | None => []
  end.

(** The permission a mutation is about: for a create or update the
    configured permission id, or else the one the generator answers; the
    tracked identifier for a delete. *)
Definition target (delim : string) (gen : UuidResp) (m : Mutation) (d : ResourceData)
    : option graph.OAuth2PermissionId :=
  match m with
  | CreateUpdate =>
      graph.OAuth2PermissionIdFrom (application_object_id d)
        <$> match GetOk_permission_id d with
            | Some v => Some v
            | None =>
                match gen with
                | UuidOk pid => Some pid
                | UuidFailed => None
                end
            end
  | Delete =>
      match graph.ParseOAuth2PermissionId delim (Id d) with
      | inr id => Some id
      | inl _ => None
      end
  end.

(** The change a mutation is meant to make, as seen in the directory: the
    permission is there with the caller's values, or it is gone. *)
Definition achieved (m : Mutation) (d : ResourceData) (id : graph.OAuth2PermissionId)
    (dir : gmap string Application) : Prop :=
  List.find (graph.has_id (graph.PermissionId id)) (collection dir (graph.ObjectId id))
  = match m with
    | CreateUpdate => Some (aadgraph.permissionOf d (graph.PermissionId id))
    | Delete => None
    end.

(** The post-condition of a mutation: when it returns no error, the change
    it was meant to make is in the directory. *)
Definition post (m : Mutation) (d : ResourceData) (id : graph.OAuth2PermissionId)
    (r : Result) (dir : gmap string Application) : Prop :=
  r.1 = None → achieved m d id dir.

(** *** The discipline of a caller

    [others_kept pid] relates two directories that agree on every permission
    but [pid].  [Safe key G Q inside p dir]: the caller that has [p] left to
    do, holding the lock [key] or not ([inside]), touches the directory only
    while it holds the lock, changes it only along [G], gives the lock back
    before it returns, and returns [r] only when [Q r] holds. *)

Definition others_kept (pid : string) (dir dir' : gmap string Application) : Prop :=
  ∀ o q, q ≠ pid →
    List.find (graph.has_id q) (collection dir' o)
    = List.find (graph.has_id q) (collection dir o).

Section Safe.
Context {R : Type}.
Variable gen : UuidResp.
Variable key : string * string.
Variable G : gmap string Application → gmap string Application → Prop.
Variable Q : R → gmap string Application → Prop.

Fixpoint Safe (inside : bool) (p : Prog R) (dir : gmap string Application) : Prop :=
  match p with
  | Ret r => inside = false ∧ Q r dir
  | LockByName n k p' =>
      inside = false ∧ (n, k) = key ∧ ∀ dir', Safe true p' dir'
  | UnlockByName n k p' =>
      inside = true ∧ (n, k) = key ∧ Safe false p' dir
  | ClientGet oid k =>
      inside = true ∧ ∀ fails, Safe true (k (fetch dir fails oid)) dir
  | ClientPatch oid perms k =>
      inside = true
      ∧ Safe true (k PatchFailed) dir
      ∧ (is_Some (dir !! oid) →
         G dir (<[oid := mkApplication perms]> dir)
         ∧ Safe true (k PatchOk) (<[oid := mkApplication perms]> dir))
  | GenerateUUID k => Safe inside (k gen) dir
  | LogPrintf _ p' => Safe inside p' dir
  | Reconcile _ p' => Safe inside p' dir
  end.
End Safe.

(** What holds of two callers and the state they share: at most one of them
    is inside its critical section, the lock is held exactly then, and each
    keeps its discipline. *)
Definition Inv (genA genB : UuidResp) (key : string * string)
    (GA GB : gmap string Application → gmap string Application → Prop)
    (QA QB : Result → gmap string Application → Prop) (cfg : Config) : Prop :=
  ∃ a b : bool,
    (a && b = false)
    ∧ (key ∈ held (shared cfg) ↔ a || b = true)
    ∧ Safe genA key GA QA a (callerA cfg) (directory (shared cfg))
    ∧ Safe genB key GB QB b (callerB cfg) (directory (shared cfg)).

(** ** The list look-ups: [usersDataRead] and [GroupsDataRead] *)

(** What a look-up call of a directory client answers: a value, or an
    error. *)
Inductive Lookup (A : Type) : Type :=
| Found (a : A)
| LookupFailed.
Arguments Found {A} a.
Arguments LookupFailed {A}.

(** How a data source read ends: it returns nil, it returns an error, or it
    dereferences a nil pointer. *)
Inductive Outcome (E A : Type) : Type :=
| Done (a : A)
| Failed (e : E)
| Panic.
Arguments Done {E A} a.
Arguments Failed {E A} e.
Arguments Panic {E A}.

(** [strings.Join]. *)
Fixpoint join (sep : string) (l : list string) : string :=
  match l with
  | [] => ""
  | [x] => x
  | x :: rest => x +:+ sep +:+ join sep rest
  end.

(** The value a loop leaves, with the expected count set before the loop. *)
Definition expecting {E A : Type} (expectedCount : nat) (r : E + list A)
    : E + (list A * nat) :=
  match r with
  | inl err => inl err
  | inr found => inr (found, expectedCount)
  end.

Module models.
(** The fields of [models.User] the data source reads. *)
Record User := mkUser {
  AccountEnabled : option bool;
  DisplayName : option string;
  Mail : option string;
  MailNickname : option string;
  ID : option string;
  OnPremisesImmutableId : option string;
  OnPremisesSamAccountName : option string;
  OnPremisesUserPrincipalName : option string;
  UsageLocation : option string;
  UserPrincipalName : option string
}.
End models.

Module msgraph.
Import models.

Record UsersClient := mkUsersClient {
  Get : string → Lookup User;
  List : string → Lookup (list User)
}.

(** The configuration of the data source; [ignore_missing] is optional. *)
Record UsersConfig := mkUsersConfig {
  object_ids : list string;
  mail_nicknames : list string;
  user_principal_names : list string;
  ignore_missing : option bool
}.

(** [d.Get("ignore_missing").(bool)]; the schema gives the attribute the
    default [false]. *)
Definition ignoreMissing (d : UsersConfig) : bool := default false (ignore_missing d).

Inductive Value :=
| VBool (b : option bool)
| VString (s : option string).

(** What the read stores: the id and the four computed attributes. *)
Record UsersState := mkUsersState {
  state_id : string;
  state_object_ids : list string;
  state_user_principal_names : list string;
  state_mail_nicknames : list string;
  state_users : list (gmap string Value)
}.

Inductive Error :=
| ErrFindingUserWithID (v : string)
| ErrFindingUserWithEmailAlias (v : string)
| ErrNoUserWithMailNickname (v : string)
| ErrIdentifyingUserWithUPN (v : string)
| ErrNoUserWithUPN (v : string)
| ErrUnexpectedNumberOfUsers (found expected : nat)
| ErrNullIdOrUPN (u : User).

(** One iteration of each of the three loops, up to the point where it
    either has a user to append or an error it would return. *)
Definition byObjectId (client : UsersClient) (v : string) : Error + User :=
  match Get client v with
  | LookupFailed => inl (ErrFindingUserWithID v)
  | Found user => inr user
  end.

Definition byMailNickname (client : UsersClient) (v : string) : Error + User :=
  match List client ("mailNickname eq '" +:+ v +:+ "'") with
  | LookupFailed => inl (ErrFindingUserWithEmailAlias v)
  | Found [] => inl (ErrNoUserWithMailNickname v)
  | Found (u :: _) => inr u
  end.

Definition byUserPrincipalName (client : UsersClient) (v : string) : Error + User :=
  match List client ("userPrincipalName eq '" +:+ v +:+ "'") with
  | LookupFailed => inl (ErrIdentifyingUserWithUPN v)
  | Found [] => inl (ErrNoUserWithUPN v)
  | Found (u :: _) => inr u
  end.

(** The loop itself: on an error, [continue] when [ignoreMissing] and
    return the error otherwise; else append the user. *)
Fixpoint collect (look : string → Error + User) (ignoreMissing : bool)
    (keys : list string) (users : list User) : Error + list User :=
  match keys with
  | [] => inr users
  | v :: rest =>
      match look v with
      | inl err =>
          if ignoreMissing then collect look ignoreMissing rest users else inl err
      | inr user => collect look ignoreMissing rest (users ++ [user])
      end
  end.

(** Lines 133-186: the users and the expected count. *)
Definition usersLookup (client : UsersClient) (d : UsersConfig)
    : Error + (list User * nat) :=
  let ignoreMissing := ignoreMissing d in
  if 0 <? length (object_ids d) then
    expecting (length (object_ids d))
      (collect (byObjectId client) ignoreMissing (object_ids d) [])
  else if 0 <? length (mail_nicknames d) then
    expecting (length (mail_nicknames d))
      (collect (byMailNickname client) ignoreMissing (mail_nicknames d) [])
  else if 0 <? length (user_principal_names d) then
    expecting (length (user_principal_names d))
      (collect (byUserPrincipalName client) ignoreMissing (user_principal_names d) [])
  else inr ([], 0).

Definition userMap (u : User) : gmap string Value :=
  <["user_principal_name" := VString (UserPrincipalName u)]>
  (<["usage_location" := VString (UsageLocation u)]>
  (<["onpremises_user_principal_name" := VString (OnPremisesUserPrincipalName u)]>
  (<["onpremises_sam_account_name" := VString (OnPremisesSamAccountName u)]>
  (<["onpremises_immutable_id" := VString (OnPremisesImmutableId u)]>
  (<["object_id" := VString (ID u)]>
  (<["mail_nickname" := VString (MailNickname u)]>
  (<["mail" := VString (Mail u)]>
  (<["display_name" := VString (DisplayName u)]>
  (<["account_enabled" := VBool (AccountEnabled u)]> ∅))))))))).

(** Lines 196-217: the loop over the users found.  The guard checks [ID]
    and [UserPrincipalName]; [MailNickname] is dereferenced as it is. *)
Fixpoint usersLists (users : list User)
    (upns oids mailNicknames : list string) (userList : list (gmap string Value))
    : Outcome Error (list string * list string * list string * list (gmap string Value)) :=
  match users with
  | [] => Done (upns, oids, mailNicknames, userList)
  | u :: rest =>
      match ID u, UserPrincipalName u with
      | Some id, Some upn =>
          match MailNickname u with
          | Some mailNickname =>
              usersLists rest (upns ++ [upn]) (oids ++ [id])
                (mailNicknames ++ [mailNickname]) (userList ++ [userMap u])
          | None => Panic
          end
      | _, _ => Failed (ErrNullIdOrUPN u)
      end
  end.

Section Read.
(** [base64.URLEncoding.EncodeToString] of the SHA-1 sum of a string;
    writing to the hash never fails. *)
Variable digest : string → string.

(** Lines 188-231: the count check and the result. *)
Definition usersFinish (ignoreMissing : bool) (users : list User) (expectedCount : nat)
    : Outcome Error UsersState :=
  if negb ignoreMissing && negb (length users =? expectedCount) then
    Failed (ErrUnexpectedNumberOfUsers (length users) expectedCount)
  else
    match usersLists users [] [] [] [] with
    | Failed e => Failed e
    | Panic => Panic
    | Done (upns, oids, mailNicknames, userList) =>
        Done {| state_id := "users#" +:+ digest (join "-" upns);
                state_object_ids := oids;
                state_user_principal_names := upns;
                state_mail_nicknames := mailNicknames;
                state_users := userList |}
    end.

Definition usersDataRead (client : UsersClient) (d : UsersConfig)
    : Outcome Error UsersState :=
  match usersLookup client d with
  | inl err => Failed err
  | inr (users, expectedCount) => usersFinish (ignoreMissing d) users expectedCount
  end.
End Read.

(** The keys the read looks up: the first of the three lists that is not
    empty, with its loop body. *)
Definition requested (client : UsersClient) (d : UsersConfig)
    : (string → Error + User) * list string :=
  if 0 <? length (object_ids d) then (byObjectId client, object_ids d)
  else if 0 <? length (mail_nicknames d) then (byMailNickname client, mail_nicknames d)
  else (byUserPrincipalName client, user_principal_names d).

(** The users found: one for each requested key whose look-up gave a
    user, in the order of the keys. *)
Definition found (client : UsersClient) (d : UsersConfig) : list User :=
  let '(look, keys) := requested client d in
  omap (λ v, match look v with inr u => Some u | inl _ => None end) keys.

(** A user the result can be built from. *)
Definition complete (u : User) : bool :=
  bool_decide (is_Some (ID u)) && bool_decide (is_Some (UserPrincipalName u))
  && bool_decide (is_Some (MailNickname u)).

End msgraph.

Module aadgraph_groups.

Record ADGroup := mkADGroup {
  ObjectID : option string;
  DisplayName : option string
}.

(** [graph.GroupGetByDisplayName] and [client.Get]; the first is declared
    in package graph and is taken as given. *)
Record GroupsClient := mkGroupsClient {
  GroupGetByDisplayName : string → Lookup ADGroup;
  Get : string → Lookup ADGroup
}.

Record GroupsConfig := mkGroupsConfig {
  names : list string;
  object_ids : list string
}.

Record GroupsState := mkGroupsState {
  state_id : string;
  state_object_ids : list string;
  state_names : list string
}.

Inductive Error :=
| ErrFindingGroupWithDisplayName (v : string)
| ErrRetrievingGroupWithID (v : string)
| ErrUnexpectedNumberOfGroups (found expected : nat)
| ErrNilObjectIDOrDisplayName (g : ADGroup).

(** Both loops: an error is returned at once. *)
Fixpoint collect (look : string → Lookup ADGroup) (err : string → Error)
    (keys : list string) (groups : list ADGroup) : Error + list ADGroup :=
  match keys with
  | [] => inr groups
  | v :: rest =>
      match look v with
      | LookupFailed => inl (err v)
      | Found g => collect look err rest (groups ++ [g])
      end
  end.

Definition groupsLookup (client : GroupsClient) (d : GroupsConfig)
    : Error + (list ADGroup * nat) :=
  if 0 <? length (names d) then
    expecting (length (names d))
      (collect (GroupGetByDisplayName client) ErrFindingGroupWithDisplayName (names d) [])
  else if 0 <? length (object_ids d) then
    expecting (length (object_ids d))
      (collect (Get client) ErrRetrievingGroupWithID (object_ids d) [])
  else inr ([], 0).

Fixpoint groupsLists (groups : list ADGroup) (names oids : list string)
    : Error + (list string * list string) :=
  match groups with
  | [] => inr (names, oids)
  | u :: rest =>
      match ObjectID u, DisplayName u with
      | Some oid, Some name => groupsLists rest (names ++ [name]) (oids ++ [oid])
      | _, _ => inl (ErrNilObjectIDOrDisplayName u)
      end
  end.

Section Read.
Variable digest : string → string.

(** Lines 79-102: the count check and the result. *)
Definition groupsFinish (groups : list ADGroup) (expectedCount : nat)
    : Error + GroupsState :=
  if negb (length groups =? expectedCount) then
    inl (ErrUnexpectedNumberOfGroups (length groups) expectedCount)
  else
    match groupsLists groups [] [] with
    | inl e => inl e
    | inr (names, oids) =>
        inr {| state_id := "groups#" +:+ digest (join "-" names);
               state_object_ids := oids;
               state_names := names |}
    end.

Definition GroupsDataRead (client : GroupsClient) (d : GroupsConfig)
    : Error + GroupsState :=
  match groupsLookup client d with
  | inl err => inl err
  | inr (groups, expectedCount) => groupsFinish groups expectedCount
  end.
End Read.

End aadgraph_groups.

(** ** Sample data *)

Module sample.

Definition delim : string := "/scope/".
Definition lockName : string := "azuread_application".

Definition appId : string := "5a1c9b60-2d3e-4f70-8a91-b2c3d4e5f601".
Definition permX : string := "0b7f1e52-6c3d-4a89-9e10-11aa22bb33c1".
Definition permY : string := "7d2e4f83-9a0b-4c1d-8e2f-44dd55ee66f2".

Definition newPermission (permissionId val : string) : ResourceData :=
  {| Id := "";
     IsNewResource := true;
     application_object_id := appId;
     admin_consent_description := "Allow the application to act for the user";
     admin_consent_display_name := "Act for the user";
     is_enabled := true;
     permission_id := permissionId;
     type_ := "User";
     user_consent_description := "Allow the application to act for you";
     user_consent_display_name := "Act for you";
     value := val |}.

Definition dX : ResourceData := newPermission permX "access.x".
Definition dY : ResourceData := newPermission permY "access.y".

(** The same permissions once they are tracked. *)
Definition tracked (d : ResourceData) : ResourceData :=
  {| Id := appId +:+ delim +:+ permission_id d;
     IsNewResource := false;
     application_object_id := application_object_id d;
     admin_consent_description := admin_consent_description d;
     admin_consent_display_name := admin_consent_display_name d;
     is_enabled := is_enabled d;
     permission_id := permission_id d;
     type_ := type_ d;
     user_consent_description := user_consent_description d;
     user_consent_display_name := user_consent_display_name d;
     value := value d |}.

Definition X : OAuth2Permission := aadgraph.permissionOf dX permX.
Definition Y : OAuth2Permission := aadgraph.permissionOf dY permY.

(** The collection last written in a history, or else [perms]. *)
Fixpoint written (perms : list OAuth2Permission) (h : list Event) : list OAuth2Permission :=
  match h with
  | [] => perms
  | EPatch _ perms' PatchOk :: h' => written perms' h'
  | _ :: h' => written perms h'
  end.

(** A directory that holds the application with the collection [perms],
    accepts every write and answers a fetch with what was written last. *)
Definition holding (perms : list OAuth2Permission) : Env :=
  {| env_get := λ h _, GetOk (mkApplication (written perms h));
     env_patch := λ _ _ _, PatchOk;
     env_uuid := λ _, UuidOk permX |}.

(** A directory without the application. *)
Definition missing : Env :=
  {| env_get := λ _ _, GetNotFound;
     env_patch := λ _ _ _, PatchFailed;
     env_uuid := λ _, UuidOk permX |}.

(** The shared state before two callers start: no lock held, the
    application there with an empty collection. *)
Definition start : Shared :=
  {| held := ∅; directory := {[ appId := mkApplication [] ]} |}.

Definition turn (first : bool) : Choice :=
  {| first_caller := first; get_fails := false; patch_fails := false |}.

(** The two callers take turns, twenty times each. *)
Definition alternating : list Choice :=
  concat (replicate 20 [turn true; turn false]).

(** Users of the directory: one complete, one without an ID, one without a
    mail nickname. *)
Definition user (id upn nick : option string) : models.User :=
  {| models.AccountEnabled := Some true;
     models.DisplayName := Some "A user";
     models.Mail := None;
     models.MailNickname := nick;
     models.ID := id;
     models.OnPremisesImmutableId := None;
     models.OnPremisesSamAccountName := None;
     models.OnPremisesUserPrincipalName := None;
     models.UsageLocation := None;
     models.UserPrincipalName := upn |}.

Definition alice : models.User :=
  user (Some "id-alice") (Some "alice@example.com") (Some "alice").
Definition noId : models.User := user None (Some "bob@example.com") (Some "bob").
Definition noNick : models.User := user (Some "id-carol") (Some "carol@example.com") None.

Definition usersClient : msgraph.UsersClient :=
  {| msgraph.Get := λ v,
       if decide (v = "id-alice") then Found alice
       else if decide (v = "id-bob") then Found noId
       else if decide (v = "id-carol") then Found noNick
       else LookupFailed;
     msgraph.List := λ _, Found [] |}.

Definition lookFor (ids : list string) (ignoreMissing : option bool) : msgraph.UsersConfig :=
  {| msgraph.object_ids := ids;
     msgraph.mail_nicknames := [];
     msgraph.user_principal_names := [];
     msgraph.ignore_missing := ignoreMissing |}.

(** A stand-in for the digest of the id. *)
Definition digest (s : string) : string := s.

End sample.

(** ** More about one operation *)

(** The three operations of the resource. *)
Inductive Operation := OpCreateUpdate | OpRead | OpDelete.

Definition operation (delim resourceApplicationName : string) (op : Operation)
    (d : ResourceData) : Prog Result :=
  match op with
  | OpCreateUpdate =>
      aadgraph.applicationOAuth2PermissionResourceCreateUpdate delim resourceApplicationName d
  | OpRead => aadgraph.applicationOAuth2PermissionResourceRead delim d
  | OpDelete =>
      aadgraph.applicationOAuth2PermissionResourceDelete delim resourceApplicationName d
  end.

Definition is_uuid (e : Event) : bool :=
  match e with EUuid _ => true | _ => false end.

Definition is_refused_write (e : Event) : bool :=
  match e with EPatch _ _ PatchFailed => true | _ => false end.

(** The event is no write, or a write to [objectId]. *)
Definition writes_to (objectId : string) (e : Event) : bool :=
  match e with
  | EPatch oid _ _ => bool_decide (oid = objectId)
  | _ => true
  end.

(** The application a mutation works on: the configured one for a create or
    update, the one of the tracked identifier for a delete. *)
Definition parent_of (delim : string) (m : Mutation) (d : ResourceData) : option string :=
  match m with
  | CreateUpdate => Some (application_object_id d)
  | Delete =>
      match graph.ParseOAuth2PermissionId delim (Id d) with
      | inr id => Some (graph.ObjectId id)
      | inl _ => None
      end
  end.

(** The next call of a caller is a call of the directory. *)
Definition at_directory {R : Type} (p : Prog R) : bool :=
  match p with
  | ClientGet _ _ => true
  | ClientPatch _ _ _ => true
  | _ => false
  end.

(** No constraint on what a caller writes, none on what it returns. *)
Definition any_change (dir dir' : gmap string Application) : Prop := True.
Definition any_result (r : Result) (dir : gmap string Application) : Prop := True.

(** [Bracketed key inside p]: on every path and whatever it is answered, [p]
    takes the lock [key] before its directory calls and gives it back before
    it returns; [inside] tells whether it holds the lock now. *)
Fixpoint Bracketed {R : Type} (key : string * string) (inside : bool) (p : Prog R) : Prop :=
  match p with
  | Ret _ => inside = false
  | LockByName n k p' => inside = false ∧ (n, k) = key ∧ Bracketed key true p'
  | UnlockByName n k p' => inside = true ∧ (n, k) = key ∧ Bracketed key false p'
  | ClientGet _ k => inside = true ∧ ∀ resp, Bracketed key true (k resp)
  | ClientPatch _ _ k => inside = true ∧ ∀ resp, Bracketed key true (k resp)
  | GenerateUUID k => ∀ resp, Bracketed key inside (k resp)
  | LogPrintf _ p' => Bracketed key inside p'
  | Reconcile _ p' => Bracketed key inside p'
  end.

(** [Within p n]: whatever it is answered, [p] returns after at most [n]
    calls. *)
Fixpoint Within {R : Type} (p : Prog R) (n : nat) : Prop :=
  match p with
  | Ret _ => True
  | LockByName _ _ p' => match n with 0 => False | S n' => Within p' n' end
  | UnlockByName _ _ p' => match n with 0 => False | S n' => Within p' n' end
  | ClientGet _ k => match n with 0 => False | S n' => ∀ resp, Within (k resp) n' end
  | ClientPatch _ _ k => match n with 0 => False | S n' => ∀ resp, Within (k resp) n' end
  | GenerateUUID k => match n with 0 => False | S n' => ∀ resp, Within (k resp) n' end
  | LogPrintf _ p' => match n with 0 => False | S n' => Within p' n' end
  | Reconcile _ p' => match n with 0 => False | S n' => Within p' n' end
  end.

(** The turns of the first caller in a schedule. *)
Definition turns_of_first (sched : list Choice) : nat :=
  length (List.filter first_caller sched).

(** Two callers on different applications: each keeps to the lock of its
    own, and the first caller's lock is held exactly while it is inside. *)
Definition Apart (keyA keyB : string * string) (cfg : Config) : Prop :=
  ∃ a b : bool,
    (keyA ∈ held (shared cfg) ↔ a = true)
    ∧ Bracketed keyA a (callerA cfg)
    ∧ Bracketed keyB b (callerB cfg).

(** ** More about the list look-ups *)

(** A users client whose list call gives back at most the first match. *)
Definition firstOnly (client : msgraph.UsersClient) : msgraph.UsersClient :=
  {| msgraph.Get := msgraph.Get client;
     msgraph.List := λ filter,
       match msgraph.List client filter with
       | Found (u :: _) => Found [u]
       | other => other
       end |}.

(** The same configuration with every list after the first non-empty one
    left out. *)
Definition firstListOnly (d : msgraph.UsersConfig) : msgraph.UsersConfig :=
  if 0 <? length (msgraph.object_ids d) then
    {| msgraph.object_ids := msgraph.object_ids d;
       msgraph.mail_nicknames := [];
       msgraph.user_principal_names := [];
       msgraph.ignore_missing := msgraph.ignore_missing d |}
  else if 0 <? length (msgraph.mail_nicknames d) then
    {| msgraph.object_ids := [];
       msgraph.mail_nicknames := msgraph.mail_nicknames d;
       msgraph.user_principal_names := [];
       msgraph.ignore_missing := msgraph.ignore_missing d |}
  else d.

(** The keys [GroupsDataRead] looks up, with the look-up and the error of
    their loop: the names if there are any, else the object ids. *)
Definition requestedGroups (client : aadgraph_groups.GroupsClient)
    (d : aadgraph_groups.GroupsConfig)
    : (string → Lookup aadgraph_groups.ADGroup) * (string → aadgraph_groups.Error)
      * list string :=
  if 0 <? length (aadgraph_groups.names d) then
    (aadgraph_groups.GroupGetByDisplayName client,
     aadgraph_groups.ErrFindingGroupWithDisplayName, aadgraph_groups.names d)
  else
    (aadgraph_groups.Get client,
     aadgraph_groups.ErrRetrievingGroupWithID, aadgraph_groups.object_ids d).

Definition foundGroup {A : Type} (r : Lookup A) : option A :=
  match r with
  | Found a => Some a
  | LookupFailed => None
  end.

(** ** The single user look-up: [userDataRead] (aadgraph) *)

(** What a get of the directory answers: the object, a 404 response, or
    another failure. *)
Inductive Fetched (A : Type) : Type :=
| FetchedOk (a : A)
| FetchedNotFound
| FetchedFailed.
Arguments FetchedOk {A} a.
Arguments FetchedNotFound {A}.
Arguments FetchedFailed {A}.

Module aadgraph_user.

(** A value of [AdditionalProperties]: a string, or anything else. *)
Inductive Any :=
| AnyString (s : string)
| AnyOther.

(** The fields of [graphrbac.User] the data source reads. *)
Record User := mkUser {
  ObjectID : option string;
  UserPrincipalName : option string;
  AccountEnabled : option bool;
  DisplayName : option string;
  ImmutableID : option string;
  Mail : option string;
  MailNickname : option string;
  UsageLocation : option string;
  AdditionalProperties : gmap string Any
}.

(** [client.Get], and the two helpers of package graph, which are taken as
    given: each returns a user that may be nil, or an error. *)
Record UsersClient := mkUsersClient {
  Get : string → Fetched User;
  UserGetByObjectId : string → Lookup (option User);
  UserGetByMailNickname : string → Lookup (option User)
}.

Record UserConfig := mkUserConfig {
  user_principal_name : string;
  object_id : string;
  mail_nickname : string
}.

(** What the read stores: the id, and the value given to each [d.Set]. *)
Record UserState := mkUserState {
  state_id : string;
  state_object_id : option string;
  state_user_principal_name : option string;
  state_account_enabled : option bool;
  state_display_name : option string;
  state_immutable_id : option string;
  state_mail : option string;
  state_mail_nickname : option string;
  state_usage_location : option string;
  state_onpremises_sam_account_name : option Any;
  state_onpremises_user_principal_name : option Any
}.

Inductive Error :=
| ErrUserNotFoundWithUPN (upn : string)
| ErrRetrievingUser (upn : string)
| ErrFindingUserWithObjectID (oId : string)
| ErrUserNotFoundWithObjectID (oId : string)
| ErrFindingUserWithEmailAlias (mailNickname : string)
| ErrUserNotFoundWithEmailAlias (mailNickname : string)
| ErrOneOfMustBeSupplied
| ErrObjectIdNil.

(** Lines 91-120: the user, by the first key that is not empty. *)
Definition userLookup (client : UsersClient) (d : UserConfig) : Error + User :=
  let upn := user_principal_name d in
  let oId := object_id d in
  let mailNickname := mail_nickname d in
  if negb (is_empty upn) then
    match Get client upn with
    | FetchedNotFound => inl (ErrUserNotFoundWithUPN upn)
    | FetchedFailed => inl (ErrRetrievingUser upn)
    | FetchedOk resp => inr resp
    end
  else if negb (is_empty oId) then
    match UserGetByObjectId client oId with
    | LookupFailed => inl (ErrFindingUserWithObjectID oId)
    | Found None => inl (ErrUserNotFoundWithObjectID oId)
    | Found (Some u) => inr u
    end
  else if negb (is_empty mailNickname) then
    match UserGetByMailNickname client mailNickname with
    | LookupFailed => inl (ErrFindingUserWithEmailAlias mailNickname)
    | Found None => inl (ErrUserNotFoundWithEmailAlias mailNickname)
    | Found (Some u) => inr u
    end
  else inl ErrOneOfMustBeSupplied.

Definition userDataRead (client : UsersClient) (d : UserConfig) : Error + UserState :=
  match userLookup client d with
  | inl err => inl err
  | inr user =>
      match ObjectID user with
      | None => inl ErrObjectIdNil
      | Some id =>
          inr {| state_id := id;
                 state_object_id := ObjectID user;
                 state_user_principal_name := UserPrincipalName user;
                 state_account_enabled := AccountEnabled user;
                 state_display_name := DisplayName user;
                 state_immutable_id := ImmutableID user;
                 state_mail := Mail user;
                 state_mail_nickname := MailNickname user;
                 state_usage_location := UsageLocation user;
                 state_onpremises_sam_account_name :=
                   AdditionalProperties user !! "onPremisesSamAccountName";
                 state_onpremises_user_principal_name :=
                   AdditionalProperties user !! "onPremisesUserPrincipalName" |}
      end
  end.

(** The same configuration with every key after the first non-empty one
    left out. *)
Definition firstKeyOnly (d : UserConfig) : UserConfig :=
  if negb (is_empty (user_principal_name d)) then
    {| user_principal_name := user_principal_name d; object_id := ""; mail_nickname := "" |}
  else if negb (is_empty (object_id d)) then
    {| user_principal_name := ""; object_id := object_id d; mail_nickname := "" |}
  else d.

(** The answer the read builds on: the one to the first key that is not
    empty. *)
Definition answered (client : UsersClient) (d : UserConfig) : option User :=
  if negb (is_empty (user_principal_name d)) then
    match Get client (user_principal_name d) with
    | FetchedOk u => Some u
    | _ => None
    end
  else if negb (is_empty (object_id d)) then
    match UserGetByObjectId client (object_id d) with
    | Found ou => ou
    | LookupFailed => None
    end
  else if negb (is_empty (mail_nickname d)) then
    match UserGetByMailNickname client (mail_nickname d) with
    | Found ou => ou
    | LookupFailed => None
    end
  else None.

End aadgraph_user.

(** ** More sample data *)

Module cases.

(** A directory that cannot be reached: every fetch fails. *)
Definition failing : Env :=
  {| env_get := λ _ _, GetFailed;
     env_patch := λ _ _ _, PatchFailed;
     env_uuid := λ _, UuidOk sample.permX |}.

(** A directory that holds the application with the collection [perms] and
    refuses every write. *)
Definition refusing (perms : list OAuth2Permission) : Env :=
  {| env_get := λ _ _, GetOk (mkApplication perms);
     env_patch := λ _ _ _, PatchFailed;
     env_uuid := λ _, UuidOk sample.permX |}.

(** A permission of another application. *)
Definition otherApp : string := "c4d5e6f7-0a1b-4c2d-9e3f-778899aabbc3".

Definition dZ : ResourceData :=
  {| Id := "";
     IsNewResource := true;
     application_object_id := otherApp;
     admin_consent_description := "Allow the application to read the reports";
     admin_consent_display_name := "Read the reports";
     is_enabled := true;
     permission_id := sample.permY;
     type_ := "Admin";
     user_consent_description := "";
     user_consent_display_name := "";
     value := "reports.read" |}.

(** Groups of the directory: two with a name, one without. *)
Definition admins : aadgraph_groups.ADGroup :=
  {| aadgraph_groups.ObjectID := Some "g-admins";
     aadgraph_groups.DisplayName := Some "Admins" |}.
Definition ops : aadgraph_groups.ADGroup :=
  {| aadgraph_groups.ObjectID := Some "g-ops";
     aadgraph_groups.DisplayName := Some "Ops" |}.
Definition unnamed : aadgraph_groups.ADGroup :=
  {| aadgraph_groups.ObjectID := Some "g-unnamed";
     aadgraph_groups.DisplayName := None |}.

Definition groupsClient : aadgraph_groups.GroupsClient :=
  {| aadgraph_groups.GroupGetByDisplayName := λ v,
       if decide (v = "Admins") then Found admins
       else if decide (v = "Ops") then Found ops
       else LookupFailed;
     aadgraph_groups.Get := λ v,
       if decide (v = "g-admins") then Found admins
       else if decide (v = "g-ops") then Found ops
       else if decide (v = "g-unnamed") then Found unnamed
       else LookupFailed |}.

Definition groupsNamed (names : list string) : aadgraph_groups.GroupsConfig :=
  {| aadgraph_groups.names := names; aadgraph_groups.object_ids := [] |}.

End cases.
(** ** Facts about strings *)


Lemma append_cons (x : ascii) (a b : string) : String x a +:+ b = String x (a +:+ b).
Proof. reflexivity. Qed.

Lemma append_assoc (a b c : string) : (a +:+ b) +:+ c = a +:+ (b +:+ c).
Proof.
  induction a as [|x a IH]; [done |].
  by rewrite !append_cons, IH.
Qed.











(** *** The first and the last occurrence of a character *)









(** Non-emptiness alone does not make a pair valid for a delimiter-joined
    form: for every delimiter, two different pairs of non-empty parts have
    the same serialized form. *)
Lemma serialized_form_collides (delim : string) :
  ∃ id1 id2 : graph.OAuth2PermissionId,
    id1 ≠ id2
    ∧ graph.ObjectId id1 ≠ "" ∧ graph.PermissionId id1 ≠ ""
    ∧ graph.ObjectId id2 ≠ "" ∧ graph.PermissionId id2 ≠ ""
    ∧ graph.OAuth2PermissionId_String delim id1 = graph.OAuth2PermissionId_String delim id2.
Proof.
  exists (graph.OAuth2PermissionIdFrom ("a" +:+ delim +:+ "b") "c"),
         (graph.OAuth2PermissionIdFrom "a" ("b" +:+ delim +:+ "c")).
  unfold graph.OAuth2PermissionId_String, graph.OAuth2PermissionIdFrom. simpl.
  split_and!.
  - intros H. apply (f_equal graph.PermissionId) in H. simpl in H.
    rewrite append_cons in H. discriminate H.
  - by rewrite append_cons.
  - done.
  - done.
  - by rewrite append_cons.
  - by rewrite !append_assoc.
Qed.


(** ** One operation: what it calls, in which order, and what it returns *)

(** Case analysis on the next answer of the environment, or on the next
    value the operation branches on. *)
Ltac answer :=
  match goal with
  | |- context [env_get ?e ?h ?o] => destruct (env_get e h o) eqn:?
  | |- context [env_patch ?e ?h ?o ?p] => destruct (env_patch e h o p) eqn:?
  | |- context [env_uuid ?e ?h] => destruct (env_uuid e h) eqn:?
  end.

Ltac branch :=
  match goal with
  | |- context [IsNewResource ?d] => destruct (IsNewResource d) eqn:?
  | |- context [find (graph.has_id ?a) ?b] => destruct (find (graph.has_id a) b) eqn:?
  | |- context [graph.ParseOAuth2PermissionId ?a ?b] =>
      destruct (graph.ParseOAuth2PermissionId a b) eqn:?
  | |- context [graph.OAuth2PermissionFindById ?a ?b] =>
      destruct (graph.OAuth2PermissionFindById a b) as [[?|] [?|]] eqn:?
  | |- context [graph.OAuth2PermissionAdd ?a ?b] =>
      destruct (graph.OAuth2PermissionAdd a b) eqn:?
  | |- context [graph.OAuth2PermissionUpdate ?a ?b] =>
      destruct (graph.OAuth2PermissionUpdate a b) eqn:?
  | |- context [graph.OAuth2PermissionResultDisableById ?a ?b] =>
      destruct (graph.OAuth2PermissionResultDisableById a b) eqn:?
  | |- context [graph.OAuth2PermissionResultRemoveById ?a ?b] =>
      destruct (graph.OAuth2PermissionResultRemoveById a b) eqn:?
  | |- context [match ?x with _ => _ end] => is_var x; destruct x
  end.

Create HintDb ops discriminated.
#[local] Hint Unfold
  aadgraph.applicationOAuth2PermissionResourceCreateUpdate
  aadgraph.createUpdateWith
  aadgraph.patchAndRead
  aadgraph.applicationOAuth2PermissionResourceRead
  aadgraph.applicationOAuth2PermissionResourceDelete
  mutate locked trace result first_fetch : ops.

Ltac exec :=
  autounfold with ops;
  repeat (simpl; first [answer | branch]); simpl.

(** The reconciler on collections. *)

Lemma existsb_find {A : Type} (f : A → bool) (l : list A) :
  existsb f l = bool_decide (is_Some (List.find f l)).
Proof.
  induction l as [|x l IH]; simpl; [done |].
  by destruct (f x).
Qed.

Lemma add_present (d : ResourceData) (pid : string) (app : Application) :
  is_Some (graph.OAuth2PermissionFindById app pid).1 →
  graph.OAuth2PermissionAdd (Oauth2Permissions app) (aadgraph.permissionOf d pid)
  = inl (graph.AlreadyExistsError "OAuth2 Permission" pid).
Proof.
  unfold graph.OAuth2PermissionFindById, graph.OAuth2PermissionAdd; simpl.
  intros H.
  change (existsb (graph.same_id (aadgraph.permissionOf d pid)))
    with (existsb (graph.has_id pid)).
  by rewrite existsb_find, bool_decide_eq_true_2.
Qed.

Section Lifecycle.
Variable delim : string.
Variable resourceApplicationName : string.

Local Abbreviation createUpdate :=
  (aadgraph.applicationOAuth2PermissionResourceCreateUpdate delim resourceApplicationName).
Local Abbreviation delete :=
  (aadgraph.applicationOAuth2PermissionResourceDelete delim resourceApplicationName).
Local Abbreviation read := (aadgraph.applicationOAuth2PermissionResourceRead delim).

(** C2 (as amended).  A delete whose identifier parses takes the parent's
    named lock exactly once, before anything else, and gives it back exactly
    once, after everything else: the fetch and both writes happen under
    that single acquisition.  With a malformed identifier nothing is
    called. *)
Theorem delete_single_acquisition (env : Env) (d : ResourceData) :
  let t := trace env (delete d) in
  match graph.ParseOAuth2PermissionId delim (Id d) with
  | inl _ => t = []
  | inr id =>
      head t = Some (ELock resourceApplicationName (graph.ObjectId id))
      ∧ last t = Some (EUnlock resourceApplicationName (graph.ObjectId id))
      ∧ List.filter (λ e, is_lock e || is_unlock e) t
        = [ELock resourceApplicationName (graph.ObjectId id);
           EUnlock resourceApplicationName (graph.ObjectId id)]
  end.
Proof.
  exec; done.
Qed.

(** C3.  In every execution of delete the calls that change anything come
    in one order: the disable reconciliation, its write, and only after
    that write was accepted the remove reconciliation and its write.  When
    the disable reconciliation fails, or its write is refused, the operation
    stops with that error and remove is not attempted. *)
Theorem delete_disable_committed_before_remove (env : Env) (d : ResourceData) :
  let t := trace env (delete d) in
  let r := result env (delete d) in
  let muts := List.filter is_mutation t in
  muts = []
  ∨ (muts = [EReconcile FnDisableById] ∧ ∃ e, r.1 = Some (ErrCouldNotDisable e))
  ∨ (∃ id app dis,
       graph.ParseOAuth2PermissionId delim (Id d) = inr id
       ∧ first_fetch t = Some (GetOk app)
       ∧ graph.OAuth2PermissionResultDisableById
           (Oauth2Permissions app) (graph.PermissionId id) = inr dis
       ∧ ((muts = [EReconcile FnDisableById; EPatch (graph.ObjectId id) dis PatchFailed]
           ∧ r.1 = Some (ErrPatchingApplication (graph.ObjectId id)))
          ∨ (muts = [EReconcile FnDisableById; EPatch (graph.ObjectId id) dis PatchOk;
                     EReconcile FnRemoveById]
             ∧ ∃ e, r.1 = Some (ErrCouldNotRemove e))
          ∨ (∃ rem resp,
               graph.OAuth2PermissionResultRemoveById
                 (Oauth2Permissions app) (graph.PermissionId id) = inr rem
               ∧ muts = [EReconcile FnDisableById; EPatch (graph.ObjectId id) dis PatchOk;
                         EReconcile FnRemoveById; EPatch (graph.ObjectId id) rem resp]
               ∧ r.1 = match resp with
                       | PatchOk => None
                       | PatchFailed => Some (ErrPatchingApplication (graph.ObjectId id))
                       end))).
Proof.
  exec; eauto 15.
Qed.

(** C4 (as amended).  When the fetch of the parent application reports it
    missing, no reconciliation function is invoked and nothing is written;
    create and update return the application-not-found error, while delete
    returns success, the parent being gone already. *)
Theorem parent_missing_stops_mutation (m : Mutation) (env : Env) (d : ResourceData) :
  let t := trace env (mutate delim resourceApplicationName m d) in
  let r := result env (mutate delim resourceApplicationName m d) in
  first_fetch t = Some GetNotFound →
  List.filter is_reconcile t = []
  ∧ List.filter is_patch t = []
  ∧ r.1 = match m with
          | CreateUpdate => Some (ErrApplicationNotFound (application_object_id d))
          | Delete => None
          end.
Proof.
  destruct m; [destruct (GetOk_permission_id d) as [v|] eqn:Hv |];
    exec; try rewrite Hv; exec; done.
Qed.

(** C5.  An update whose permission id is not in the collection the
    parent was fetched with fails with the permission-not-found error;
    neither the update reconciliation nor a write is attempted. *)
Theorem update_absent_permission_not_found
    (env : Env) (d : ResourceData) (pid : string) (app : Application) :
  let t := trace env (createUpdate d) in
  let r := result env (createUpdate d) in
  IsNewResource d = false →
  chosen_permission_id env d = Some pid →
  first_fetch t = Some (GetOk app) →
  (graph.OAuth2PermissionFindById app pid).1 = None →
  r.1 = Some (ErrPermissionNotFound pid (application_object_id d))
  ∧ List.filter is_mutation t = [].
Proof.
  unfold chosen_permission_id, graph.OAuth2PermissionFindById.
  destruct (GetOk_permission_id d) as [v|] eqn:Hv;
    exec; try rewrite Hv; exec; intros; simplify_eq; done.
Qed.

(** C7.  A create whose permission id is already in the collection the
    parent was fetched with returns the import-as-exists error, which names
    the resource and the composite identifier; nothing is written, so the
    existing entry stays as it is. *)
Theorem create_existing_permission_import_collision
    (env : Env) (d : ResourceData) (pid : string) (app : Application) :
  let t := trace env (createUpdate d) in
  let r := result env (createUpdate d) in
  IsNewResource d = true →
  chosen_permission_id env d = Some pid →
  first_fetch t = Some (GetOk app) →
  is_Some (graph.OAuth2PermissionFindById app pid).1 →
  r.1 = Some (ErrImportAsExists "azuread_application_oauth2_permission"
                (graph.OAuth2PermissionId_String delim
                   (graph.OAuth2PermissionIdFrom (application_object_id d) pid)))
  ∧ List.filter is_patch t = [].
Proof.
  intros t r Hnew Hpid Hfetch Hin. subst t r.
  apply (add_present d) in Hin.
  revert Hnew Hpid Hfetch. unfold chosen_permission_id.
  destruct (GetOk_permission_id d) as [v|] eqn:Hv;
    exec; try rewrite Hv; exec; intros; simplify_eq; first [done | congruence].
Qed.

(** C6.  A read of a well-formed tracked identifier whose parent
    application is reported missing, or whose permission is not in the
    parent's collection, returns no error and clears the identifier. *)
Theorem read_absent_clears_identity
    (env : Env) (d : ResourceData) (id : graph.OAuth2PermissionId) :
  let t := trace env (read d) in
  let r := result env (read d) in
  graph.ParseOAuth2PermissionId delim (Id d) = inr id →
  (first_fetch t = Some GetNotFound
   ∨ ∃ app, first_fetch t = Some (GetOk app)
            ∧ (graph.OAuth2PermissionFindById app (graph.PermissionId id)).1 = None) →
  r = (None, SetId "" d) ∧ Id r.2 = "".
Proof.
  unfold graph.OAuth2PermissionFindById.
  exec; intros ? [?|(? & ? & ?)]; simplify_eq; done.
Qed.

End Lifecycle.

(** ** Two operations at once: the lock serializes them *)

Section Discipline.
Context {R : Type}.
Variable gen : UuidResp.
Variable key : string * string.
Variable G Rely : gmap string Application → gmap string Application → Prop.
Variable Q : R → gmap string Application → Prop.
Hypothesis Q_stable : ∀ r dir dir', Q r dir → Rely dir dir' → Q r dir'.

(** A caller outside its critical section is not disturbed by what the
    other one writes. *)
Lemma Safe_outside_stable (p : Prog R) (dir dir' : gmap string Application) :
  Safe gen key G Q false p dir → Rely dir dir' → Safe gen key G Q false p dir'.
Proof using Q_stable.
  induction p as [r|n k p IH|n k p IH|oid k IH|oid perms k IH|k IH|msg p IH|f p IH];
    simpl; intros HS HR.
  - destruct HS as [? HQ]. eauto.
  - done.
  - by destruct HS.
  - by destruct HS.
  - by destruct HS.
  - eauto.
  - eauto.
  - eauto.
Qed.
End Discipline.

(** One step of a caller that keeps its discipline, next to a caller that
    is outside or inside its own critical section. *)
Lemma step_keeps (gen gen' : UuidResp) (key : string * string)
    (G G' : gmap string Application → gmap string Application → Prop)
    (Q Q' : Result → gmap string Application → Prop)
    (Q'_stable : ∀ r dir dir', Q' r dir → G dir dir' → Q' r dir')
    (c : Choice) (p p' q : Prog Result) (σ σ' : Shared) (a b : bool) :
  a && b = false →
  (key ∈ held σ ↔ a || b = true) →
  Safe gen key G Q a p (directory σ) →
  Safe gen' key G' Q' b q (directory σ) →
  step gen c p σ = Some (p', σ') →
  ∃ a', a' && b = false
        ∧ (key ∈ held σ' ↔ a' || b = true)
        ∧ Safe gen key G Q a' p' (directory σ')
        ∧ Safe gen' key G' Q' b q (directory σ').
Proof.
  intros Hab Hheld Hp Hq Hstep.
  destruct p as [r|n k p|n k p|oid k|oid perms k|k|msg p|f p]; simpl in *.
  - done.
  - destruct Hp as (-> & <- & Hp).
    destruct (decide ((n, k) ∈ held σ)) as [Hin|Hout]; [done |].
    simplify_eq; simpl.
    assert (b = false) as -> by (destruct b; [exfalso; apply Hout, Hheld |]; done).
    exists true. split_and!; [done | | done | done].
    split; [done | intros _]. apply elem_of_union_l. by apply elem_of_singleton.
  - destruct Hp as (-> & <- & Hp). simplify_eq; simpl.
    assert (b = false) as -> by (by destruct b).
    exists false. split_and!; [done | | done | done].
    split; [intros [_ H]%elem_of_difference | done].
    exfalso. apply H. by apply elem_of_singleton.
  - destruct Hp as (-> & Hp). simplify_eq.
    exists true. eauto.
  - destruct Hp as (-> & Hfail & Hok).
    assert (b = false) as -> by (by destruct b).
    destruct (patch_fails c); [simplify_eq; exists true; eauto |].
    destruct (directory σ !! oid) as [app|] eqn:Hoid;
      [| simplify_eq; exists true; eauto].
    simplify_eq; simpl.
    destruct Hok as [HG Hok]; [by eexists |].
    exists true. split_and!; [done | done | done |].
    eapply (Safe_outside_stable gen' key G' G Q' Q'_stable); eauto.
  - simplify_eq. exists a. eauto.
  - simplify_eq. exists a. eauto.
  - simplify_eq. exists a. eauto.
Qed.


Section Exclusion.
Variable genA genB : UuidResp.
Variable key : string * string.
Variable GA GB : gmap string Application → gmap string Application → Prop.
Variable QA QB : Result → gmap string Application → Prop.
Hypothesis QA_stable : ∀ r dir dir', QA r dir → GB dir dir' → QA r dir'.
Hypothesis QB_stable : ∀ r dir dir', QB r dir → GA dir dir' → QB r dir'.

Lemma Inv_cstep (c : Choice) (cfg : Config) :
  Inv genA genB key GA GB QA QB cfg → Inv genA genB key GA GB QA QB (cstep genA genB c cfg).
Proof using QA_stable QB_stable.
  intros (a & b & Hab & Hheld & HA & HB). unfold cstep.
  destruct (first_caller c).
  - destruct (step genA c (callerA cfg) (shared cfg)) as [[p σ]|] eqn:Hstep;
      [| by exists a, b].
    destruct (step_keeps genA genB key GA GB QA QB QB_stable c _ _ _ _ _ a b Hab Hheld HA HB Hstep)
      as (a' & ? & ? & ? & ?).
    by exists a', b.
  - destruct (step genB c (callerB cfg) (shared cfg)) as [[p σ]|] eqn:Hstep;
      [| by exists a, b].
    rewrite andb_comm in Hab. rewrite orb_comm in Hheld.
    destruct (step_keeps genB genA key GB GA QB QA QA_stable c _ _ _ _ _ b a Hab Hheld HB HA Hstep)
      as (b' & Hab' & Hheld' & ? & ?).
    rewrite andb_comm in Hab'. rewrite orb_comm in Hheld'.
    by exists a, b'.
Qed.

Lemma Inv_crun (sched : list Choice) (cfg : Config) :
  Inv genA genB key GA GB QA QB cfg → Inv genA genB key GA GB QA QB (crun genA genB sched cfg).
Proof using QA_stable QB_stable.
  revert cfg. induction sched as [|c sched IH]; intros cfg H; [done |].
  apply IH, Inv_cstep, H.
Qed.

(** When both callers have returned, both postconditions hold of the
    directory. *)
Lemma Inv_returned (cfg : Config) (rA rB : Result) :
  Inv genA genB key GA GB QA QB cfg →
  returned (callerA cfg) = Some rA →
  returned (callerB cfg) = Some rB →
  QA rA (directory (shared cfg)) ∧ QB rB (directory (shared cfg)).
Proof.
  intros (a & b & _ & _ & HA & HB) HrA HrB.
  destruct (callerA cfg); simplify_eq/=.
  destruct (callerB cfg); simplify_eq/=.
  by destruct HA, HB.
Qed.
End Exclusion.

(** ** The reconciler keeps the other permissions *)

Lemma has_id_other (pid q : string) (x : OAuth2Permission) :
  q ≠ pid → ID x = Some pid → graph.has_id q x = false.
Proof.
  intros Hq Hx. unfold graph.has_id. rewrite Hx.
  apply bool_decide_eq_false_2. congruence.
Qed.

Lemma has_id_same (pid : string) (x : OAuth2Permission) :
  ID x = Some pid → graph.has_id pid x = true.
Proof. intros Hx. unfold graph.has_id. by rewrite Hx, bool_decide_eq_true_2. Qed.

Lemma has_id_inv (pid : string) (x : OAuth2Permission) :
  graph.has_id pid x = true → ID x = Some pid.
Proof. apply bool_decide_eq_true. Qed.

Section Reconciler.
Variables (pid q : string).

Lemma find_add_other (l : list OAuth2Permission) (x : OAuth2Permission) :
  q ≠ pid → ID x = Some pid →
  List.find (graph.has_id q) (l ++ [x]) = List.find (graph.has_id q) l.
Proof.
  intros Hq Hx. induction l as [|v l IH]; simpl.
  - by rewrite (has_id_other pid q x).
  - by destruct (graph.has_id q v).
Qed.

Lemma find_add_new (l : list OAuth2Permission) (x : OAuth2Permission) :
  existsb (graph.has_id pid) l = false → ID x = Some pid →
  List.find (graph.has_id pid) (l ++ [x]) = Some x.
Proof.
  intros Hl Hx. induction l as [|v l IH]; simpl in *.
  - by rewrite (has_id_same pid x).
  - apply orb_false_elim in Hl as [-> Hl]. auto.
Qed.

Lemma find_replace_other (l : list OAuth2Permission) (x : OAuth2Permission) :
  q ≠ pid → ID x = Some pid →
  List.find (graph.has_id q) (List.map (λ v, if graph.has_id pid v then x else v) l)
  = List.find (graph.has_id q) l.
Proof.
  intros Hq Hx. induction l as [|v l IH]; simpl; [done |].
  destruct (graph.has_id pid v) eqn:Hv.
  - apply has_id_inv in Hv.
    by rewrite (has_id_other pid q x), (has_id_other pid q v).
  - by destruct (graph.has_id q v).
Qed.

Lemma find_replace_same (l : list OAuth2Permission) (x : OAuth2Permission) :
  existsb (graph.has_id pid) l = true → ID x = Some pid →
  List.find (graph.has_id pid) (List.map (λ v, if graph.has_id pid v then x else v) l)
  = Some x.
Proof.
  intros Hl Hx. induction l as [|v l IH]; simpl in *; [done |].
  destruct (graph.has_id pid v) eqn:Hv; simpl in *.
  - by rewrite (has_id_same pid x).
  - rewrite Hv. auto.
Qed.

Lemma find_disable_other (l : list OAuth2Permission) :
  q ≠ pid →
  List.find (graph.has_id q)
    (List.map (λ v, if graph.has_id pid v then graph.disabled v else v) l)
  = List.find (graph.has_id q) l.
Proof.
  intros Hq. induction l as [|v l IH]; simpl; [done |].
  destruct (graph.has_id pid v) eqn:Hv.
  - apply has_id_inv in Hv.
    by rewrite (has_id_other pid q (graph.disabled v)), (has_id_other pid q v).
  - by destruct (graph.has_id q v).
Qed.

Lemma find_remove_other (l : list OAuth2Permission) :
  q ≠ pid →
  List.find (graph.has_id q) (List.filter (λ v, negb (graph.has_id pid v)) l)
  = List.find (graph.has_id q) l.
Proof.
  intros Hq. induction l as [|v l IH]; simpl; [done |].
  destruct (graph.has_id pid v) eqn:Hv; simpl.
  - apply has_id_inv in Hv. by rewrite (has_id_other pid q v).
  - by destruct (graph.has_id q v).
Qed.

Lemma find_remove_same (l : list OAuth2Permission) :
  List.find (graph.has_id pid) (List.filter (λ v, negb (graph.has_id pid v)) l) = None.
Proof.
  induction l as [|v l IH]; simpl; [done |].
  destruct (graph.has_id pid v) eqn:Hv; simpl; [done |]. by rewrite Hv.
Qed.
End Reconciler.

Lemma collection_insert (dir : gmap string Application) (oid o : string)
    (perms : list OAuth2Permission) :
  collection (<[oid := mkApplication perms]> dir) o
  = if decide (oid = o) then perms else collection dir o.
Proof.
  unfold collection. rewrite lookup_insert. by case_decide.
Qed.

(** Writing a collection that agrees with the present one on every other
    permission keeps the others. *)
Lemma others_kept_write (pid oid : string) (dir : gmap string Application)
    (perms : list OAuth2Permission) :
  (∀ q, q ≠ pid →
     List.find (graph.has_id q) perms
     = List.find (graph.has_id q) (collection dir oid)) →
  others_kept pid dir (<[oid := mkApplication perms]> dir).
Proof.
  intros H o q Hq. rewrite collection_insert.
  case_decide; [subst; auto | done].
Qed.

(** ** Each mutation keeps the discipline *)

Section MutationsSafe.
Variable delim : string.
Variable resourceApplicationName : string.

Local Abbreviation read := (aadgraph.applicationOAuth2PermissionResourceRead delim).

(** The read that ends a create or update runs under the lock and writes
    nothing. *)
Lemma read_then_unlock_safe (gen : UuidResp)
    (key : string * string) (G : gmap string Application → gmap string Application → Prop)
    (Q : Result → gmap string Application → Prop)
    (d : ResourceData) (dir : gmap string Application) :
  (∀ r, Q r dir) →
  Safe gen key G Q true
    (bind (read d) (λ r, UnlockByName key.1 key.2 (Ret r))) dir.
Proof.
  intros HQ. destruct key as [n k].
  unfold aadgraph.applicationOAuth2PermissionResourceRead.
  destruct (graph.ParseOAuth2PermissionId delim (Id d)) as [err|id]; simpl;
    [by split_and! |].
  split; [done |]. intros fails. unfold fetch.
  destruct fails; simpl; [by split_and! |].
  destruct (dir !! graph.ObjectId id) as [app|]; simpl; [| by split_and!].
  destruct (find _ _); simpl; by split_and!.
Qed.

Lemma patchAndRead_safe (gen : UuidResp) (d d' : ResourceData) (pid : string)
    (newPermissions : list OAuth2Permission) (dir : gmap string Application) :
  let id := graph.OAuth2PermissionIdFrom (application_object_id d) pid in
  (∀ q, q ≠ pid →
     List.find (graph.has_id q) newPermissions
     = List.find (graph.has_id q) (collection dir (application_object_id d))) →
  List.find (graph.has_id pid) newPermissions = Some (aadgraph.permissionOf d pid) →
  Safe gen (resourceApplicationName, graph.ObjectId id) (others_kept pid)
    (post CreateUpdate d id) true
    (bind (aadgraph.patchAndRead delim d' id newPermissions)
       (λ r, UnlockByName resourceApplicationName (graph.ObjectId id) (Ret r)))
    dir.
Proof.
  intros id Hothers Hsame. unfold aadgraph.patchAndRead. simpl.
  split_and!; [done.. | ]. intros _. split.
  - by apply others_kept_write.
  - apply (read_then_unlock_safe gen (resourceApplicationName, application_object_id d)).
    intros r _. unfold achieved; simpl.
    by rewrite collection_insert, decide_True.
Qed.

Lemma createUpdateWith_safe (gen : UuidResp) (d : ResourceData) (pid : string)
    (dir : gmap string Application) :
  let id := graph.OAuth2PermissionIdFrom (application_object_id d) pid in
  Safe gen (resourceApplicationName, graph.ObjectId id) (others_kept pid)
    (post CreateUpdate d id) false
    (aadgraph.createUpdateWith delim resourceApplicationName d pid) dir.
Proof.
  unfold aadgraph.createUpdateWith, locked. simpl.
  split_and!; [done.. |]. clear dir. intros dir.
  split; [done |]. intros fails. unfold fetch.
  destruct fails; simpl; [by split_and! |].
  destruct (dir !! application_object_id d) as [app|] eqn:Happ; simpl; [| by split_and!].
  assert (collection dir (application_object_id d) = Oauth2Permissions app) as Hcoll
    by (unfold collection; by rewrite Happ).
  destruct (IsNewResource d); simpl.
  - unfold graph.OAuth2PermissionAdd.
    change (existsb (graph.same_id (aadgraph.permissionOf d pid)))
      with (existsb (graph.has_id pid)).
    destruct (existsb (graph.has_id pid) (Oauth2Permissions app)) eqn:Hex; simpl;
      [by split_and! |].
    apply patchAndRead_safe.
    + intros q Hq. rewrite Hcoll. by apply (find_add_other pid).
    + by apply (find_add_new pid).
  - destruct (find (graph.has_id pid) (Oauth2Permissions app)) as [v|] eqn:Hfind;
      simpl; [| by split_and!].
    unfold graph.OAuth2PermissionUpdate.
    change (existsb (graph.same_id (aadgraph.permissionOf d pid)))
      with (existsb (graph.has_id pid)).
    change (graph.same_id (aadgraph.permissionOf d pid)) with (graph.has_id pid).
    destruct (existsb (graph.has_id pid) (Oauth2Permissions app)) eqn:Hex; simpl;
      [| by split_and!].
    apply patchAndRead_safe.
    + intros q Hq. rewrite Hcoll. by apply (find_replace_other pid).
    + by apply (find_replace_same pid).
Qed.

Lemma createUpdate_safe (gen : UuidResp) (d : ResourceData) (id : graph.OAuth2PermissionId)
    (dir : gmap string Application) :
  target delim gen CreateUpdate d = Some id →
  Safe gen (resourceApplicationName, graph.ObjectId id) (others_kept (graph.PermissionId id))
    (post CreateUpdate d id) false
    (aadgraph.applicationOAuth2PermissionResourceCreateUpdate
       delim resourceApplicationName d) dir.
Proof.
  unfold target, aadgraph.applicationOAuth2PermissionResourceCreateUpdate.
  destruct (GetOk_permission_id d) as [pid|]; simpl.
  - intros [= <-]. apply (createUpdateWith_safe _ d pid dir).
  - destruct gen as [pid|]; simpl; [| done].
    intros [= <-]. apply (createUpdateWith_safe _ d pid dir).
Qed.

Lemma delete_safe (gen : UuidResp) (d : ResourceData) (id : graph.OAuth2PermissionId)
    (dir : gmap string Application) :
  target delim gen Delete d = Some id →
  Safe gen (resourceApplicationName, graph.ObjectId id) (others_kept (graph.PermissionId id))
    (post Delete d id) false
    (aadgraph.applicationOAuth2PermissionResourceDelete
       delim resourceApplicationName d) dir.
Proof.
  unfold target, aadgraph.applicationOAuth2PermissionResourceDelete, locked.
  destruct (graph.ParseOAuth2PermissionId delim (Id d)) as [err|id']; [done |].
  intros [= ->]. simpl.
  split_and!; [done.. |]. clear dir. intros dir.
  split; [done |]. intros fails. unfold fetch.
  destruct fails; simpl; [by split_and! |].
  destruct (dir !! graph.ObjectId id) as [app|] eqn:Happ; simpl.
  2: { split_and!; [done.. |]. intros _. unfold achieved, collection. by rewrite Happ. }
  assert (collection dir (graph.ObjectId id) = Oauth2Permissions app) as Hcoll
    by (unfold collection; by rewrite Happ).
  unfold graph.OAuth2PermissionResultDisableById, graph.OAuth2PermissionResultRemoveById.
  destruct (existsb _ _); simpl; [| by split_and!].
  split_and!; [done.. |]. intros _. split.
  { apply others_kept_write. intros q Hq. rewrite Hcoll. by apply find_disable_other. }
  split_and!; [done.. |]. intros _. split.
  { apply others_kept_write. intros q Hq.
    rewrite collection_insert, decide_True by done.
    by rewrite find_remove_other, find_disable_other. }
  split_and!; [done.. |]. intros _. unfold achieved.
  rewrite collection_insert, decide_True by done. apply find_remove_same.
Qed.

Lemma mutate_safe (gen : UuidResp) (m : Mutation) (d : ResourceData) (id : graph.OAuth2PermissionId)
    (dir : gmap string Application) :
  target delim gen m d = Some id →
  Safe gen (resourceApplicationName, graph.ObjectId id) (others_kept (graph.PermissionId id))
    (post m d id) false (mutate delim resourceApplicationName m d) dir.
Proof. destruct m; [apply createUpdate_safe | apply delete_safe]. Qed.

(** The post-condition of one caller survives the writes of a caller that
    works on another permission. *)
Lemma post_stable (m : Mutation) (d : ResourceData) (id : graph.OAuth2PermissionId)
    (pid' : string) (r : Result) (dir dir' : gmap string Application) :
  graph.PermissionId id ≠ pid' →
  post m d id r dir → others_kept pid' dir dir' → post m d id r dir'.
Proof.
  unfold post, achieved. intros Hne Hpost Hkept Hr.
  rewrite Hkept by done. auto.
Qed.

End MutationsSafe.

Lemma achieved_create_elem (d : ResourceData) (id : graph.OAuth2PermissionId)
    (dir : gmap string Application) :
  achieved CreateUpdate d id dir →
  aadgraph.permissionOf d (graph.PermissionId id) ∈ collection dir (graph.ObjectId id).
Proof.
  unfold achieved. intros H. apply list_elem_of_In.
  by apply find_some in H as [H _].
Qed.

(** C1.  Two mutations (create, update or delete) of different permissions of
    the same application, run at once under any schedule and with any remote
    failures: once both have returned, the directory holds the change of
    each caller that returned no error.  In particular, when one caller adds
    X and the other adds Y, the collection holds both X and Y. *)
Theorem concurrent_mutations_both_kept
    (delim resourceApplicationName : string) (genA genB : UuidResp)
    (sched : list Choice) (σ : Shared)
    (mA mB : Mutation) (dA dB : ResourceData) (idA idB : graph.OAuth2PermissionId)
    (rA rB : Result) :
  target delim genA mA dA = Some idA →
  target delim genB mB dB = Some idB →
  graph.ObjectId idA = graph.ObjectId idB →
  graph.PermissionId idA ≠ graph.PermissionId idB →
  (resourceApplicationName, graph.ObjectId idA) ∉ held σ →
  let cfg := crun genA genB sched
               (mkConfig σ (mutate delim resourceApplicationName mA dA)
                           (mutate delim resourceApplicationName mB dB)) in
  returned (callerA cfg) = Some rA →
  returned (callerB cfg) = Some rB →
  (rA.1 = None → achieved mA dA idA (directory (shared cfg)))
  ∧ (rB.1 = None → achieved mB dB idB (directory (shared cfg))).
Proof.
  intros HtA HtB Hparent Hperm Hfree cfg HrA HrB.
  apply (Inv_returned genA genB (resourceApplicationName, graph.ObjectId idA)
           (others_kept (graph.PermissionId idA)) (others_kept (graph.PermissionId idB))
           (post mA dA idA) (post mB dB idB)); [| done..].
  apply Inv_crun.
  - intros r dir dir'. by apply post_stable.
  - intros r dir dir'. apply post_stable. congruence.
  - exists false, false. split_and!; [done | | |]; simpl.
    + split; [done | discriminate].
    + by apply mutate_safe.
    + rewrite Hparent. by apply mutate_safe.
Qed.

(** ** The list look-ups *)

Section UsersLoops.
Import models msgraph.

Lemma collect_ignoring (look : string → Error + User) (keys : list string)
    (users : list User) :
  collect look true keys users
  = inr (users ++ omap (λ v, match look v with inr u => Some u | inl _ => None end) keys).
Proof.
  revert users. induction keys as [|v keys IH]; intros users; simpl.
  - by rewrite app_nil_r.
  - destruct (look v) as [e|u]; [done |].
    by rewrite IH, <- app_assoc.
Qed.

Lemma collect_strict_fails (look : string → Error + User) (keys : list string)
    (users : list User) (v : string) (e : Error) :
  v ∈ keys → look v = inl e → ∃ e', collect look false keys users = inl e'.
Proof.
  revert users. induction keys as [|k keys IH]; intros users Hin Hv.
  - by apply elem_of_nil in Hin.
  - simpl. destruct (look k) as [e'|u] eqn:Hk; [by eexists |].
    apply elem_of_cons in Hin as [->|Hin]; [congruence |]. by apply IH.
Qed.

Lemma collect_strict_length (look : string → Error + User) (keys : list string)
    (users found : list User) :
  collect look false keys users = inr found →
  length found = length users + length keys.
Proof.
  revert users. induction keys as [|k keys IH]; intros users; simpl.
  - intros [= <-]. lia.
  - destruct (look k) as [e'|u]; [done |].
    intros H%IH. rewrite length_app in H. simpl in *. lia.
Qed.

Lemma usersLists_complete (users : list User)
    (upns oids mailNicknames : list string) (userList : list (gmap string Value)) :
  forallb complete users = true →
  usersLists users upns oids mailNicknames userList
  = Done (upns ++ omap UserPrincipalName users, oids ++ omap ID users,
          mailNicknames ++ omap MailNickname users, userList ++ List.map userMap users).
Proof.
  revert upns oids mailNicknames userList.
  induction users as [|u users IH]; intros upns oids mailNicknames userList; simpl.
  - intros _. by rewrite !app_nil_r.
  - unfold complete at 1.
    intros [[[Hid Hupn]%andb_true_iff Hnick]%andb_true_iff Hrest]%andb_true_iff.
    apply bool_decide_eq_true in Hid as [id Hid].
    apply bool_decide_eq_true in Hupn as [upn Hupn].
    apply bool_decide_eq_true in Hnick as [nick Hnick].
    rewrite Hid, Hupn, Hnick. simpl.
    rewrite (IH _ _ _ _ Hrest). by rewrite <- !app_assoc.
Qed.

Lemma usersLists_done_mail_nicknames (users : list User)
    (upns oids mailNicknames : list string) (userList : list (gmap string Value)) r :
  usersLists users upns oids mailNicknames userList = Done r →
  Forall (λ u, is_Some (MailNickname u)) users.
Proof.
  revert upns oids mailNicknames userList.
  induction users as [|u users IH]; intros upns oids mailNicknames userList; simpl.
  - by constructor.
  - destruct (ID u), (UserPrincipalName u), (MailNickname u) eqn:Hnick; try done.
    intros H%IH. constructor; [by eexists | done].
Qed.

Lemma usersLists_nil_mail_nickname (pre post : list User) (u : User)
    (upns oids mailNicknames : list string) (userList : list (gmap string Value)) :
  forallb complete pre = true →
  is_Some (ID u) → is_Some (UserPrincipalName u) → MailNickname u = None →
  usersLists (pre ++ u :: post) upns oids mailNicknames userList = Panic.
Proof.
  intros Hpre [id Hid] [upn Hupn] Hnick.
  revert upns oids mailNicknames userList.
  induction pre as [|v pre IH]; intros upns oids mailNicknames userList; simpl.
  - by rewrite Hid, Hupn, Hnick.
  - simpl in Hpre. apply andb_true_iff in Hpre as [Hv Hpre].
    unfold complete in Hv.
    apply andb_true_iff in Hv as [[Hvid Hvupn]%andb_true_iff Hvnick].
    apply bool_decide_eq_true in Hvid as [? ->].
    apply bool_decide_eq_true in Hvupn as [? ->].
    apply bool_decide_eq_true in Hvnick as [? ->].
    by apply IH.
Qed.

Lemma usersLookup_ignoring (client : UsersClient) (d : UsersConfig) :
  ignoreMissing d = true →
  ∃ n, usersLookup client d = inr (found client d, n).
Proof.
  intros Hig. unfold usersLookup, found, requested. rewrite Hig.
  destruct (0 <? length (object_ids d));
    [| destruct (0 <? length (mail_nicknames d));
       [| destruct (0 <? length (user_principal_names d)) eqn:Hupn]];
    rewrite ?collect_ignoring; simpl; eauto.
  apply Nat.ltb_ge in Hupn.
  destruct (user_principal_names d); [eauto | simpl in Hupn; lia].
Qed.
End UsersLoops.

Section UsersRead.
Import models msgraph.
Variable digest : string → string.

Lemma usersLookup_strict_length (client : UsersClient) (d : UsersConfig)
    (users : list User) (n : nat) :
  ignoreMissing d = false →
  usersLookup client d = inr (users, n) → length users = n.
Proof.
  intros Hig. unfold usersLookup. rewrite Hig.
  repeat case_match; unfold expecting; intros Hl; repeat case_match; simplify_eq;
    try done;
    match goal with
    | Hc : collect _ _ _ _ = inr _ |- _ => by apply collect_strict_length in Hc
    end.
Qed.

(** C10.  The read returns normally only when every user found has a mail
    nickname: the guard of the result loop checks the ID and the user
    principal name, the mail nickname is dereferenced as it is.  Whenever
    the first user found that is not complete has an ID and a user
    principal name but no mail nickname, the read ends in the nil
    dereference; and some directory answers make that happen. *)
Theorem mail_nickname_dereferenced_unguarded (client : UsersClient) (d : UsersConfig) :
  (∀ st, usersDataRead digest client d = Done st →
     ∃ users n, usersLookup client d = inr (users, n)
                ∧ Forall (λ u, is_Some (MailNickname u)) users)
  ∧ (∀ users n pre u post,
       usersLookup client d = inr (users, n) →
       users = pre ++ u :: post →
       forallb complete pre = true →
       is_Some (ID u) → is_Some (UserPrincipalName u) → MailNickname u = None →
       usersDataRead digest client d = Panic)
  ∧ (∃ (client' : UsersClient) (d' : UsersConfig) (u : User),
       found client' d' = [u]
       ∧ is_Some (ID u) ∧ is_Some (UserPrincipalName u) ∧ MailNickname u = None
       ∧ usersDataRead digest client' d' = Panic).
Proof.
  split_and!.
  - intros st. unfold usersDataRead.
    destruct (usersLookup client d) as [e|[users n]]; [done |].
    unfold usersFinish. case_match; [done |].
    destruct (usersLists users [] [] [] []) as [r| |] eqn:Hl; [| done..].
    intros _. exists users, n. split; [done |].
    by eapply usersLists_done_mail_nicknames.
  - intros users n pre u post Hlook -> Hpre Hid Hupn Hnick.
    unfold usersDataRead. rewrite Hlook. unfold usersFinish.
    destruct (ignoreMissing d) eqn:Hig; simpl.
    + by rewrite usersLists_nil_mail_nickname.
    + rewrite (usersLookup_strict_length client d _ n Hig Hlook), Nat.eqb_refl. simpl.
      by rewrite usersLists_nil_mail_nickname.
  - set (u := {| AccountEnabled := Some true; DisplayName := None; Mail := None;
                 MailNickname := None; ID := Some "id"; OnPremisesImmutableId := None;
                 OnPremisesSamAccountName := None; OnPremisesUserPrincipalName := None;
                 UsageLocation := None; UserPrincipalName := Some "upn" |}).
    exists {| Get := λ _, Found u; List := λ _, LookupFailed |},
           {| object_ids := ["id"]; mail_nicknames := []; user_principal_names := [];
              ignore_missing := None |}, u.
    split_and!; [done | by eexists | by eexists | done | done].
Qed.
End UsersRead.

(** ** More about one operation *)

#[local] Hint Unfold operation : ops.

Section LifecycleMore.
Variable delim : string.
Variable resourceApplicationName : string.

Local Abbreviation createUpdate :=
  (aadgraph.applicationOAuth2PermissionResourceCreateUpdate delim resourceApplicationName).
Local Abbreviation delete :=
  (aadgraph.applicationOAuth2PermissionResourceDelete delim resourceApplicationName).
Local Abbreviation read := (aadgraph.applicationOAuth2PermissionResourceRead delim).

(** X1.  A create or update that has a permission id to work on takes the
    lock of its application before any directory call, once, and gives it
    back once, as its last call.  When no id is configured and the generator
    fails, the operation returns that error and has called nothing else. *)
Theorem createUpdate_lock_discipline (env : Env) (d : ResourceData) :
  let t := trace env (createUpdate d) in
  let r := result env (createUpdate d) in
  match chosen_permission_id env d with
  | None => t = [EUuid UuidFailed] ∧ r = (Some (ErrGeneratingUUID (application_object_id d)), d)
  | Some _ =>
      head (List.filter (λ e, negb (is_uuid e)) t)
      = Some (ELock resourceApplicationName (application_object_id d))
      ∧ last t = Some (EUnlock resourceApplicationName (application_object_id d))
      ∧ List.filter (λ e, is_lock e || is_unlock e) t
        = [ELock resourceApplicationName (application_object_id d);
           EUnlock resourceApplicationName (application_object_id d)]
  end.
Proof.
  unfold chosen_permission_id.
  destruct (GetOk_permission_id d) as [v|] eqn:Hv;
    exec; try rewrite Hv; exec; done.
Qed.

(** X2.  A read takes no lock, asks for no id and writes nothing; it
    fetches the application at most once. *)
Theorem read_only_fetches (env : Env) (d : ResourceData) :
  let t := trace env (read d) in
  List.filter (λ e, is_lock e || is_unlock e || is_patch e || is_uuid e) t = []
  ∧ length (List.filter is_get t) ≤ 1.
Proof.
  exec; split; (done || lia).
Qed.

(** X3.  A mutation writes only to its own application: a create or update
    fetches at most twice and writes at most once, a delete fetches at most
    once and writes at most twice, and every write goes to the application
    the mutation works on. *)
Theorem mutation_call_budget (m : Mutation) (env : Env) (d : ResourceData) :
  let t := trace env (mutate delim resourceApplicationName m d) in
  match m with
  | CreateUpdate =>
      length (List.filter is_get t) ≤ 2 ∧ length (List.filter is_patch t) ≤ 1
  | Delete =>
      length (List.filter is_get t) ≤ 1 ∧ length (List.filter is_patch t) ≤ 2
  end
  ∧ match parent_of delim m d with
    | Some objectId => forallb (writes_to objectId) t = true
    | None => t = []
    end.
Proof.
  destruct m; unfold parent_of;
    [destruct (GetOk_permission_id d) as [v|] eqn:Hv |];
    exec; try rewrite Hv; exec;
    rewrite ?bool_decide_eq_true_2 by done; split; (done || (split; lia)).
Qed.

(** X4.  A mutation that returns no error has committed its change: a
    create or update made exactly one write and it was accepted; a delete
    either found the application gone and wrote nothing, or made its two
    writes and both were accepted. *)
Theorem success_means_committed (m : Mutation) (env : Env) (d : ResourceData) :
  let t := trace env (mutate delim resourceApplicationName m d) in
  let r := result env (mutate delim resourceApplicationName m d) in
  r.1 = None →
  match m with
  | CreateUpdate =>
      ∃ perms, List.filter is_patch t = [EPatch (application_object_id d) perms PatchOk]
  | Delete =>
      (first_fetch t = Some GetNotFound ∧ List.filter is_patch t = [])
      ∨ ∃ oid dis rem,
          List.filter is_patch t = [EPatch oid dis PatchOk; EPatch oid rem PatchOk]
  end.
Proof.
  destruct m; [destruct (GetOk_permission_id d) as [v|] eqn:Hv |];
    exec; try rewrite Hv; exec; intros; simplify_eq; eauto 10.
Qed.


(** X6.  A delete never changes the resource data, and a read changes it
    only when it returns no error. *)
Theorem delete_and_failed_read_keep_data (env : Env) (d : ResourceData) :
  (result env (delete d)).2 = d
  ∧ (is_Some (result env (read d)).1 → (result env (read d)).2 = d).
Proof.
  split; exec; try done; by intros [? ?].
Qed.

(** X7.  When the fetch of the application fails for another reason than
    its absence, each of the three operations returns the retrieval error
    and the data as given; nothing is reconciled or written. *)
Theorem fetch_failure_stops (op : Operation) (env : Env) (d : ResourceData) :
  let t := trace env (operation delim resourceApplicationName op d) in
  let r := result env (operation delim resourceApplicationName op d) in
  first_fetch t = Some GetFailed →
  (∃ objectId, r.1 = Some (ErrRetrievingApplication objectId))
  ∧ r.2 = d
  ∧ List.filter is_reconcile t = []
  ∧ List.filter is_patch t = [].
Proof.
  destruct op; [destruct (GetOk_permission_id d) as [v|] eqn:Hv | |];
    exec; try rewrite Hv; exec; intros; simplify_eq; eauto.
Qed.

(** X8.  When the directory refuses the write of a create or update, the
    operation returns the patch error and the data as given, and does not
    go on to read the resource back. *)
Theorem refused_write_stops (env : Env) (d : ResourceData) :
  let t := trace env (createUpdate d) in
  let r := result env (createUpdate d) in
  existsb is_refused_write t = true →
  r = (Some (ErrPatchingApplication (application_object_id d)), d)
  ∧ length (List.filter is_get t) = 1
  ∧ last t = Some (EUnlock resourceApplicationName (application_object_id d)).
Proof.
  destruct (GetOk_permission_id d) as [v|] eqn:Hv;
    exec; try rewrite Hv; exec; intros; simplify_eq; done.
Qed.

End LifecycleMore.

(** ** More about two operations at once *)

Ltac discipline :=
  repeat (simpl;
          match goal with
          | |- True => exact I
          | |- _ = _ => reflexivity
          | |- _ ∧ _ => split
          | |- ∀ _, _ => intro
          | |- context [fetch ?d ?f ?o] => unfold fetch; destruct f; [| destruct (d !! o)]
          | |- context [match ?x with _ => _ end] => destruct x eqn:?
          end).

(** Whatever the reconciler computes, a mutation touches the directory
    only between taking and giving back the lock of its application. *)
Lemma mutate_disciplined (delim resourceApplicationName : string) (gen : UuidResp)
    (m : Mutation) (d : ResourceData) (objectId : string) (dir : gmap string Application) :
  parent_of delim m d = Some objectId →
  Safe gen (resourceApplicationName, objectId) any_change any_result false
    (mutate delim resourceApplicationName m d) dir.
Proof.
  unfold parent_of, any_change, any_result.
  destruct m; simpl.
  - intros [= <-].
    unfold aadgraph.applicationOAuth2PermissionResourceCreateUpdate,
      aadgraph.createUpdateWith, aadgraph.patchAndRead,
      aadgraph.applicationOAuth2PermissionResourceRead, locked.
    discipline.
  - unfold aadgraph.applicationOAuth2PermissionResourceDelete, locked.
    destruct (graph.ParseOAuth2PermissionId delim (Id d)) as [err|id]; [done |].
    intros [= <-]. discipline.
Qed.

Section SameParent.
Variable delim resourceApplicationName : string.
Variable genA genB : UuidResp.
Variable mA mB : Mutation.
Variable dA dB : ResourceData.
Variable objectId : string.
Hypothesis parentA : parent_of delim mA dA = Some objectId.
Hypothesis parentB : parent_of delim mB dB = Some objectId.

Lemma same_parent_invariant (sched : list Choice) (σ : Shared) :
  (resourceApplicationName, objectId) ∉ held σ →
  Inv genA genB (resourceApplicationName, objectId)
    any_change any_change any_result any_result
    (crun genA genB sched
       (mkConfig σ (mutate delim resourceApplicationName mA dA)
                   (mutate delim resourceApplicationName mB dB))).
Proof using parentA parentB.
  intros Hfree. apply Inv_crun; [done | done |].
  exists false, false. split_and!; simpl.
  - done.
  - split; [done | discriminate].
  - by apply mutate_disciplined.
  - by apply mutate_disciplined.
Qed.

(** X9.  Two mutations of the same application, whatever permissions they
    are about, under any schedule: a caller is at a call of the directory
    only while the lock of the application is held, and the two callers are
    never both at a call of the directory. *)
Theorem directory_calls_exclude_each_other (sched : list Choice) (σ : Shared) :
  (resourceApplicationName, objectId) ∉ held σ →
  let cfg := crun genA genB sched
               (mkConfig σ (mutate delim resourceApplicationName mA dA)
                           (mutate delim resourceApplicationName mB dB)) in
  (at_directory (callerA cfg) || at_directory (callerB cfg) = true →
   (resourceApplicationName, objectId) ∈ held (shared cfg))
  ∧ at_directory (callerA cfg) && at_directory (callerB cfg) = false.
Proof using parentA parentB.
  intros Hfree cfg.
  destruct (same_parent_invariant sched σ Hfree) as (a & b & Hab & Hheld & HA & HB).
  fold cfg in Hheld, HA, HB.
  assert (at_directory (callerA cfg) = true → a = true) as HinA.
  { destruct (callerA cfg); simpl in *; try done; by destruct HA. }
  assert (at_directory (callerB cfg) = true → b = true) as HinB.
  { destruct (callerB cfg); simpl in *; try done; by destruct HB. }
  split.
  - intros [H|H]%orb_true_iff; apply Hheld.
    + by rewrite (HinA H).
    + rewrite (HinB H). by destruct a.
  - destruct (at_directory (callerA cfg)), (at_directory (callerB cfg)); try done.
    rewrite HinA, HinB in Hab; done.
Qed.

(** X10.  Two mutations of the same application, under any schedule and
    with any failures: once both have returned, the lock of the application
    is free again. *)
Theorem lock_free_after_return (sched : list Choice) (σ : Shared) (rA rB : Result) :
  (resourceApplicationName, objectId) ∉ held σ →
  let cfg := crun genA genB sched
               (mkConfig σ (mutate delim resourceApplicationName mA dA)
                           (mutate delim resourceApplicationName mB dB)) in
  returned (callerA cfg) = Some rA →
  returned (callerB cfg) = Some rB →
  (resourceApplicationName, objectId) ∉ held (shared cfg).
Proof using parentA parentB.
  intros Hfree cfg HrA HrB.
  destruct (same_parent_invariant sched σ Hfree) as (a & b & Hab & Hheld & HA & HB).
  fold cfg in Hheld, HA, HB.
  destruct (callerA cfg); simplify_eq/=.
  destruct (callerB cfg); simplify_eq/=.
  destruct HA as [-> _], HB as [-> _].
  intros Hin. by apply Hheld in Hin.
Qed.
End SameParent.

(** *** Two different applications *)

Ltac bracket :=
  repeat (simpl;
          match goal with
          | |- True => exact I
          | |- _ = _ => reflexivity
          | |- _ ∧ _ => split
          | |- ∀ _, _ => intro
          | |- context [match ?x with _ => _ end] => destruct x eqn:?
          end).

Lemma mutate_bracketed (delim resourceApplicationName : string)
    (m : Mutation) (d : ResourceData) (objectId : string) :
  parent_of delim m d = Some objectId →
  Bracketed (resourceApplicationName, objectId) false
    (mutate delim resourceApplicationName m d).
Proof.
  unfold parent_of. destruct m; simpl.
  - intros [= <-].
    unfold aadgraph.applicationOAuth2PermissionResourceCreateUpdate,
      aadgraph.createUpdateWith, aadgraph.patchAndRead,
      aadgraph.applicationOAuth2PermissionResourceRead, locked.
    bracket.
  - unfold aadgraph.applicationOAuth2PermissionResourceDelete, locked.
    destruct (graph.ParseOAuth2PermissionId delim (Id d)) as [err|id]; [done |].
    intros [= <-]. bracket.
Qed.

(** A mutation makes at most ten calls. *)
Lemma mutate_within (delim resourceApplicationName : string)
    (m : Mutation) (d : ResourceData) :
  Within (mutate delim resourceApplicationName m d) 10.
Proof.
  destruct m; simpl.
  - unfold aadgraph.applicationOAuth2PermissionResourceCreateUpdate,
      aadgraph.createUpdateWith, aadgraph.patchAndRead,
      aadgraph.applicationOAuth2PermissionResourceRead, locked.
    bracket.
  - unfold aadgraph.applicationOAuth2PermissionResourceDelete, locked.
    bracket.
Qed.

Lemma Within_mono {R : Type} (p : Prog R) (n n' : nat) :
  Within p n → n ≤ n' → Within p n'.
Proof.
  revert n n'.
  induction p as [r|? ? p IH|? ? p IH|? k IH|? ? k IH|k IH|? p IH|? p IH];
    intros n n' H Hle; simpl in *; [done | ..];
    (destruct n as [|n]; [done |]); (destruct n' as [|n']; [lia |]);
    try (intros resp); eapply IH; eauto; lia.
Qed.

Section DifferentParents.
Variable genA genB : UuidResp.
Variable keyA keyB : string * string.
Hypothesis keys_differ : keyA ≠ keyB.

(** The first caller is never made to wait: it has returned or its next
    call goes through, and it keeps its bracket. *)
Lemma Apart_first_moves (c : Choice) (cfg : Config) (n : nat) :
  Apart keyA keyB cfg →
  Within (callerA cfg) n →
  returned (callerA cfg) = None →
  ∃ p σ, step genA c (callerA cfg) (shared cfg) = Some (p, σ)
         ∧ Apart keyA keyB (mkConfig σ p (callerB cfg))
         ∧ Within p (pred n).
Proof using Type.
  clear keys_differ.
  intros (a & b & Hheld & HA & HB) Hn Hret.
  destruct (callerA cfg) as [r|m k p|m k p|oid k|oid perms k|k|msg p|f p] eqn:Hp;
    simpl in *; [done | ..]; (destruct n as [|n]; [done |]); simpl.
  - destruct HA as (-> & <- & HA).
    destruct (decide ((m, k) ∈ held (shared cfg))) as [Hin|Hout];
      [apply Hheld in Hin; done |].
    eexists _, _. split; [done |]. split; [| done].
    exists true, b. simpl. split_and!; [| done | done].
    split; [done | intros _]. apply elem_of_union_l. by apply elem_of_singleton.
  - destruct HA as (-> & <- & HA).
    eexists _, _. split; [done |]. split; [| done].
    exists false, b. simpl. split_and!; [| done | done].
    split; [intros [_ H]%elem_of_difference | done].
    exfalso. apply H. by apply elem_of_singleton.
  - destruct HA as (-> & HA).
    eexists _, _. split; [done |]. split; [| done].
    exists true, b. simpl. by split_and!.
  - destruct HA as (-> & HA).
    destruct (patch_fails c); [| destruct (directory (shared cfg) !! oid)];
      (eexists _, _; split; [done |]; split; [| done]);
      exists true, b; simpl; by split_and!.
  - eexists _, _. split; [done |]. split; [| done].
    exists a, b. simpl. by split_and!.
  - eexists _, _. split; [done |]. split; [| done].
    exists a, b. simpl. by split_and!.
  - eexists _, _. split; [done |]. split; [| done].
    exists a, b. simpl. by split_and!.
Qed.

(** A step of the second caller leaves the first caller and its lock as
    they are. *)
Lemma Apart_second_step (c : Choice) (cfg : Config) (p : Prog Result) (σ : Shared) :
  Apart keyA keyB cfg →
  step genB c (callerB cfg) (shared cfg) = Some (p, σ) →
  Apart keyA keyB (mkConfig σ (callerA cfg) p).
Proof using keys_differ.
  intros (a & b & Hheld & HA & HB) Hstep.
  destruct (callerB cfg) as [r|m k q|m k q|oid k|oid perms k|k|msg q|f q];
    simpl in *; [done | ..].
  - destruct HB as (-> & <- & HB).
    destruct (decide ((m, k) ∈ held (shared cfg))); [done |]. simplify_eq.
    exists a, true. simpl. split_and!; [| done | done].
    rewrite <- Hheld. rewrite elem_of_union, elem_of_singleton. intuition congruence.
  - destruct HB as (-> & <- & HB). simplify_eq.
    exists a, false. simpl. split_and!; [| done | done].
    rewrite <- Hheld. rewrite elem_of_difference, elem_of_singleton. intuition congruence.
  - destruct HB as (-> & HB). simplify_eq. exists a, true. simpl. by split_and!.
  - destruct HB as (-> & HB).
    destruct (patch_fails c); [| destruct (directory (shared cfg) !! oid)];
      simplify_eq; exists a, true; simpl; by split_and!.
  - simplify_eq. exists a, b. simpl. by split_and!.
  - simplify_eq. exists a, b. simpl. by split_and!.
  - simplify_eq. exists a, b. simpl. by split_and!.
Qed.

Lemma Apart_returns (sched : list Choice) (cfg : Config) (n : nat) :
  Apart keyA keyB cfg →
  Within (callerA cfg) n →
  n ≤ turns_of_first sched →
  is_Some (returned (callerA (crun genA genB sched cfg))).
Proof using keys_differ.
  revert cfg n. induction sched as [|c sched IH]; intros cfg n Hinv Hn Hle.
  - unfold turns_of_first in Hle. simpl in *.
    destruct (callerA cfg); simpl in *; [by eexists | ..];
      (destruct n; [done | lia]).
  - unfold crun. simpl. fold (crun genA genB sched).
    unfold turns_of_first in Hle. simpl in Hle. unfold cstep.
    destruct (first_caller c); simpl in Hle.
    + destruct (returned (callerA cfg)) as [r|] eqn:Hret.
      * assert (step genA c (callerA cfg) (shared cfg) = None) as ->
          by (destruct (callerA cfg); simplify_eq/=; done).
        apply (IH cfg 0); [done | | lia].
        destruct (callerA cfg); simplify_eq/=; done.
      * destruct (Apart_first_moves c cfg n Hinv Hn Hret) as (p & σ & -> & Hinv' & Hn').
        apply (IH _ (pred n)); [done | done |].
        unfold turns_of_first. lia.
    + destruct (step genB c (callerB cfg) (shared cfg)) as [[p σ]|] eqn:Hstep.
      * apply (IH _ n); [by eapply Apart_second_step | done |].
        unfold turns_of_first. lia.
      * apply (IH cfg n); [done | done |]. unfold turns_of_first. lia.
Qed.
End DifferentParents.

(** X11.  Two mutations of different applications do not wait for each
    other: under any schedule and with any failures, a caller has returned
    once it was given ten turns, whatever the other caller does. *)
Theorem different_parents_do_not_wait
    (delim resourceApplicationName : string) (genA genB : UuidResp)
    (sched : list Choice) (σ : Shared)
    (mA mB : Mutation) (dA dB : ResourceData) (objectIdA objectIdB : string) :
  parent_of delim mA dA = Some objectIdA →
  parent_of delim mB dB = Some objectIdB →
  objectIdA ≠ objectIdB →
  (resourceApplicationName, objectIdA) ∉ held σ →
  10 ≤ turns_of_first sched →
  is_Some (returned (callerA
             (crun genA genB sched
                (mkConfig σ (mutate delim resourceApplicationName mA dA)
                            (mutate delim resourceApplicationName mB dB))))).
Proof.
  intros HA HB Hne Hfree Hturns.
  apply (Apart_returns genA genB (resourceApplicationName, objectIdA)
           (resourceApplicationName, objectIdB)) with (n := 10).
  - congruence.
  - exists false, false. simpl. split_and!.
    + split; [done | discriminate].
    + by apply mutate_bracketed.
    + by apply mutate_bracketed.
  - apply mutate_within.
  - done.
Qed.

(** ** More about the list look-ups *)

(** The loop of [GroupsDataRead]. *)

Lemma groups_collect_found (look : string → Lookup aadgraph_groups.ADGroup)
    (err : string → aadgraph_groups.Error) (keys : list string)
    (groups found : list aadgraph_groups.ADGroup) :
  aadgraph_groups.collect look err keys groups = inr found →
  found = groups ++ omap (λ v, foundGroup (look v)) keys
  ∧ length found = length groups + length keys
  ∧ Forall (λ v, is_Some (foundGroup (look v))) keys.
Proof.
  revert groups. induction keys as [|v keys IH]; intros groups; simpl.
  - intros [= <-]. rewrite app_nil_r. split_and!; [done | lia | done].
  - destruct (look v) as [g|] eqn:Hv; [| done].
    intros (-> & Hlen & Hall)%IH. split_and!.
    + by rewrite <- app_assoc.
    + rewrite Hlen, length_app. simpl. lia.
    + constructor; [by rewrite Hv | done].
Qed.

Lemma groups_collect_error (look : string → Lookup aadgraph_groups.ADGroup)
    (err : string → aadgraph_groups.Error) (keys : list string)
    (groups : list aadgraph_groups.ADGroup) (e : aadgraph_groups.Error) :
  aadgraph_groups.collect look err keys groups = inl e →
  ∃ v, v ∈ keys ∧ look v = LookupFailed ∧ e = err v.
Proof.
  revert groups. induction keys as [|v keys IH]; intros groups; simpl; [done |].
  destruct (look v) as [g|] eqn:Hv.
  - intros (w & ? & ? & ?)%IH. exists w. split; [by apply list_elem_of_further | done].
  - intros [= <-]. exists v. split; [apply list_elem_of_here | done].
Qed.

Lemma groups_collect_first_error (look : string → Lookup aadgraph_groups.ADGroup)
    (err : string → aadgraph_groups.Error) (pre post : list string) (v : string)
    (groups : list aadgraph_groups.ADGroup) :
  Forall (λ k, is_Some (foundGroup (look k))) pre →
  look v = LookupFailed →
  aadgraph_groups.collect look err (pre ++ v :: post) groups = inl (err v).
Proof.
  intros Hpre Hv. revert groups.
  induction Hpre as [|k pre [g Hk] _ IH]; intros groups; simpl.
  - by rewrite Hv.
  - destruct (look k); [| done]. apply IH.
Qed.

Lemma groupsLists_error (groups : list aadgraph_groups.ADGroup) (names oids : list string)
    (e : aadgraph_groups.Error) :
  aadgraph_groups.groupsLists groups names oids = inl e →
  ∃ g, g ∈ groups ∧ e = aadgraph_groups.ErrNilObjectIDOrDisplayName g
       ∧ (aadgraph_groups.ObjectID g = None ∨ aadgraph_groups.DisplayName g = None).
Proof.
  revert names oids. induction groups as [|g groups IH]; intros names oids; simpl; [done |].
  destruct (aadgraph_groups.ObjectID g) eqn:Hoid, (aadgraph_groups.DisplayName g) eqn:Hname;
    try (intros (w & ? & ? & ?)%IH; exists w; split; [by apply list_elem_of_further | done]);
    intros [= <-]; exists g; (split; [apply list_elem_of_here |]); split; auto.
Qed.

Lemma groupsLists_found (groups : list aadgraph_groups.ADGroup) (names oids : list string)
    (names' oids' : list string) :
  aadgraph_groups.groupsLists groups names oids = inr (names', oids') →
  names' = names ++ omap aadgraph_groups.DisplayName groups
  ∧ oids' = oids ++ omap aadgraph_groups.ObjectID groups
  ∧ length names' = length names + length groups
  ∧ length oids' = length oids + length groups.
Proof.
  revert names oids. induction groups as [|g groups IH]; intros names oids; simpl.
  - intros [= <- <-]. rewrite !app_nil_r. split_and!; (done || lia).
  - destruct (aadgraph_groups.ObjectID g) eqn:Hoid, (aadgraph_groups.DisplayName g) eqn:Hname;
      try done.
    intros (-> & -> & Hn & Ho)%IH.
    rewrite Hn, Ho, !length_app. simpl.
    split_and!; [by rewrite <- app_assoc | by rewrite <- app_assoc | lia | lia].
Qed.

Section UsersMore.
Import models msgraph.

Lemma collect_ext (look look' : string → Error + User) (ignoreMissing : bool)
    (keys : list string) (users : list User) :
  (∀ v, v ∈ keys → look v = look' v) →
  collect look ignoreMissing keys users = collect look' ignoreMissing keys users.
Proof.
  revert users. induction keys as [|v keys IH]; intros users H; simpl; [done |].
  rewrite <- (H v) by apply list_elem_of_here.
  destruct (look v); [destruct ignoreMissing; [| done] |];
    apply IH; intros; apply H; by apply list_elem_of_further.
Qed.

Lemma collect_strict_found (look : string → Error + User) (keys : list string)
    (users found : list User) :
  collect look false keys users = inr found →
  found = users ++ omap (λ v, match look v with inr u => Some u | inl _ => None end) keys
  ∧ Forall (λ v, is_Some (match look v with inr u => Some u | inl _ => None end)) keys.
Proof.
  revert users. induction keys as [|v keys IH]; intros users; simpl.
  - intros [= <-]. by rewrite app_nil_r.
  - destruct (look v) as [e|u] eqn:Hv; [done |].
    intros [-> Hall]%IH. rewrite <- app_assoc. split; [reflexivity |].
    constructor; [by rewrite Hv | done].
Qed.

Lemma collect_strict_first_error (look : string → Error + User)
    (pre post : list string) (v : string) (e : Error) (users : list User) :
  Forall (λ k, is_Some (match look k with inr u => Some u | inl _ => None end)) pre →
  look v = inl e →
  collect look false (pre ++ v :: post) users = inl e.
Proof.
  intros Hpre Hv. revert users.
  induction Hpre as [|k pre [u Hk] _ IH]; intros users; simpl.
  - by rewrite Hv.
  - destruct (look k); [done |]. apply IH.
Qed.

Lemma collect_error (look : string → Error + User) (ignoreMissing : bool)
    (keys : list string) (users : list User) (e : Error) :
  collect look ignoreMissing keys users = inl e →
  ignoreMissing = false ∧ ∃ v, v ∈ keys ∧ look v = inl e.
Proof.
  revert users. induction keys as [|v keys IH]; intros users; simpl; [done |].
  destruct (look v) as [e'|u] eqn:Hv.
  - destruct ignoreMissing.
    + intros (? & w & ? & ?)%IH. split; [done |]. exists w.
      split; [by apply list_elem_of_further | done].
    + intros [= ->]. split; [done |]. exists v. split; [apply list_elem_of_here | done].
  - intros (? & w & ? & ?)%IH. split; [done |]. exists w.
    split; [by apply list_elem_of_further | done].
Qed.

(** What the loop leaves is the list of the users found, in both modes. *)
Lemma usersLookup_found (client : UsersClient) (d : UsersConfig)
    (users : list User) (n : nat) :
  usersLookup client d = inr (users, n) →
  users = found client d ∧ (ignoreMissing d = false → length users = length (requested client d).2).
Proof.
  unfold usersLookup, found, requested, expecting.
  destruct (ignoreMissing d) eqn:Hig.
  - rewrite !collect_ignoring.
    repeat case_match; intros; simplify_eq; try done.
    match goal with
    | H : (0 <? length (user_principal_names d)) = false |- _ =>
        apply Nat.ltb_ge in H; by destruct (user_principal_names d); [| simpl in H; lia]
    end.
  - repeat case_match; intros; simplify_eq;
      try match goal with
          | H : collect _ false _ [] = inr _ |- _ =>
              pose proof (collect_strict_length _ _ _ _ H) as Hlen;
              apply collect_strict_found in H as [-> _]; simpl in *; by split
          end.
    match goal with
    | H : (0 <? length (user_principal_names d)) = false |- _ =>
        apply Nat.ltb_ge in H; by destruct (user_principal_names d); [| simpl in H; lia]
    end.
Qed.

Lemma usersLists_done_complete (users : list User)
    (upns oids mailNicknames : list string) (userList : list (gmap string Value)) r :
  usersLists users upns oids mailNicknames userList = Done r →
  forallb complete users = true.
Proof.
  revert upns oids mailNicknames userList.
  induction users as [|u users IH]; intros upns oids mailNicknames userList; simpl; [done |].
  unfold complete at 1.
  destruct (ID u), (UserPrincipalName u), (MailNickname u); try done.
  intros H%IH. rewrite H. simpl.
  rewrite ?bool_decide_eq_true_2 by by eexists. done.
Qed.

Lemma usersLists_failed (users : list User)
    (upns oids mailNicknames : list string) (userList : list (gmap string Value)) e :
  usersLists users upns oids mailNicknames userList = Failed e →
  ∃ u, u ∈ users ∧ e = ErrNullIdOrUPN u ∧ (ID u = None ∨ UserPrincipalName u = None).
Proof.
  revert upns oids mailNicknames userList.
  induction users as [|u users IH]; intros upns oids mailNicknames userList; simpl; [done |].
  destruct (ID u) eqn:Hid, (UserPrincipalName u) eqn:Hupn, (MailNickname u);
    try done;
    try (intros (w & ? & ? & ?)%IH; exists w; split; [by apply list_elem_of_further | done]);
    intros [= <-]; exists u; (split; [apply list_elem_of_here |]); split; auto.
Qed.

Lemma usersLists_nil_guard (pre post : list User) (u : User)
    (upns oids mailNicknames : list string) (userList : list (gmap string Value)) :
  forallb complete pre = true →
  ID u = None ∨ UserPrincipalName u = None →
  usersLists (pre ++ u :: post) upns oids mailNicknames userList = Failed (ErrNullIdOrUPN u).
Proof.
  intros Hpre Hu. revert upns oids mailNicknames userList.
  induction pre as [|v pre IH]; intros upns oids mailNicknames userList; simpl.
  - destruct Hu as [-> | Hu]; [done |]. rewrite Hu. by destruct (ID u).
  - simpl in Hpre. apply andb_true_iff in Hpre as [Hv Hpre].
    unfold complete in Hv.
    apply andb_true_iff in Hv as [[Hvid Hvupn]%andb_true_iff Hvnick].
    apply bool_decide_eq_true in Hvid as [? ->].
    apply bool_decide_eq_true in Hvupn as [? ->].
    apply bool_decide_eq_true in Hvnick as [? ->].
    by apply IH.
Qed.

Lemma omap_length_complete {A : Type} (f : User → option A) (users : list User) :
  Forall (λ u, is_Some (f u)) users → length (omap f users) = length users.
Proof.
  induction 1 as [|u users [a Hu] _ IH]; simpl; [done |].
  rewrite Hu. simpl. f_equal. apply IH.
Qed.

Lemma complete_fields (users : list User) :
  forallb complete users = true →
  Forall (λ u, is_Some (ID u)) users
  ∧ Forall (λ u, is_Some (UserPrincipalName u)) users
  ∧ Forall (λ u, is_Some (MailNickname u)) users.
Proof.
  induction users as [|u users IH]; simpl; [intros _; repeat split; constructor |].
  unfold complete at 1.
  intros [[[Hid Hupn]%andb_true_iff Hnick]%andb_true_iff Hrest]%andb_true_iff.
  apply bool_decide_eq_true in Hid. apply bool_decide_eq_true in Hupn.
  apply bool_decide_eq_true in Hnick.
  destruct (IH Hrest) as (? & ? & ?). repeat split; by constructor.
Qed.

Section UsersReadMore.
Variable digest : string → string.

(** X12.  Only the first of the three lists that is not empty is looked
    up: object ids before mail nicknames before user principal names.  The
    lists after it have no influence on the read. *)
Theorem users_first_list_only (client : UsersClient) (d : UsersConfig) :
  usersDataRead digest client (firstListOnly d) = usersDataRead digest client d.
Proof.
  unfold firstListOnly, usersDataRead, usersLookup, ignoreMissing.
  destruct (0 <? length (object_ids d)) eqn:Hoids; simpl.
  - by rewrite Hoids.
  - destruct (0 <? length (mail_nicknames d)) eqn:Hnicks; simpl; [| by rewrite Hoids, Hnicks].
    by rewrite Hnicks.
Qed.

(** X13.  A look-up by mail nickname or by user principal name uses the
    first user of the answer only: further matches of the same filter have
    no influence on the read. *)
Theorem users_first_match_only (client : UsersClient) (d : UsersConfig) :
  usersDataRead digest (firstOnly client) d = usersDataRead digest client d.
Proof.
  assert (∀ v, byMailNickname (firstOnly client) v = byMailNickname client v) as Hnick.
  { intros v. unfold byMailNickname, firstOnly; simpl.
    by destruct (List client _) as [[|u us]|]. }
  assert (∀ v, byUserPrincipalName (firstOnly client) v = byUserPrincipalName client v) as Hupn.
  { intros v. unfold byUserPrincipalName, firstOnly; simpl.
    by destruct (List client _) as [[|u us]|]. }
  unfold usersDataRead, usersLookup.
  rewrite (collect_ext (byMailNickname (firstOnly client)) (byMailNickname client))
    by (intros; apply Hnick).
  rewrite (collect_ext (byUserPrincipalName (firstOnly client)) (byUserPrincipalName client))
    by (intros; apply Hupn).
  done.
Qed.

(** X14.  A read that succeeds stores one entry for each user found, in
    the order of the keys: the four lists are as long as the list of users
    found, every one of those users has an ID, a user principal name and a
    mail nickname, and the id is made of the user principal names.  Without
    [ignore_missing] there is one entry for each requested key. *)
Theorem users_success_aligned (client : UsersClient) (d : UsersConfig) (st : UsersState) :
  usersDataRead digest client d = Done st →
  let us := found client d in
  forallb complete us = true
  ∧ st = {| state_id := "users#" +:+ digest (join "-" (omap UserPrincipalName us));
            state_object_ids := omap ID us;
            state_user_principal_names := omap UserPrincipalName us;
            state_mail_nicknames := omap MailNickname us;
            state_users := List.map userMap us |}
  ∧ length (state_object_ids st) = length us
  ∧ length (state_user_principal_names st) = length us
  ∧ length (state_mail_nicknames st) = length us
  ∧ length (state_users st) = length us
  ∧ (ignoreMissing d = false → length us = length (requested client d).2).
Proof.
  unfold usersDataRead.
  destruct (usersLookup client d) as [e|[users n]] eqn:Hlook; [done |].
  destruct (usersLookup_found client d users n Hlook) as [-> Hlen].
  unfold usersFinish. case_match; [done |].
  destruct (usersLists (found client d) [] [] [] []) as [[[[upns oids] nicks] ul]| |] eqn:Hl;
    [| done..].
  pose proof (usersLists_done_complete _ _ _ _ _ _ Hl) as Hall.
  rewrite (usersLists_complete _ _ _ _ _ Hall) in Hl. simpl in Hl. simplify_eq.
  intros [= <-]. simpl.
  destruct (complete_fields _ Hall) as (Hid & Hupn & Hnick).
  split_and!; try done.
  - by apply omap_length_complete.
  - by apply omap_length_complete.
  - by apply omap_length_complete.
  - by rewrite length_map.
Qed.

(** The two ways in which the read returns an error. *)
Lemma usersDataRead_failed (client : UsersClient) (d : UsersConfig) (e : Error) :
  usersDataRead digest client d = Failed e →
  (ignoreMissing d = false
   ∧ ∃ v, v ∈ (requested client d).2 ∧ (requested client d).1 v = inl e)
  ∨ (∃ u, u ∈ found client d ∧ e = ErrNullIdOrUPN u
          ∧ (ID u = None ∨ UserPrincipalName u = None)).
Proof.
  unfold usersDataRead.
  destruct (usersLookup client d) as [e'|[users n]] eqn:Hlook.
  - intros [= ->]. left. revert Hlook.
    unfold usersLookup, requested, expecting.
    repeat case_match; intros; simplify_eq;
      match goal with
      | H : collect _ _ _ _ = inl _ |- _ => by apply collect_error in H
      end.
  - destruct (usersLookup_found client d users n Hlook) as [-> Hlen].
    unfold usersFinish.
    destruct (ignoreMissing d) eqn:Hig; simpl.
    + destruct (usersLists (found client d) [] [] [] []) as [[[[? ?] ?] ?]|e'|] eqn:Hl;
        [done | | done].
      intros [= ->]. right. by eapply usersLists_failed.
    + rewrite (usersLookup_strict_length client d _ n Hig Hlook), Nat.eqb_refl. simpl.
      destruct (usersLists (found client d) [] [] [] []) as [[[[? ?] ?] ?]|e'|] eqn:Hl;
        [done | | done].
      intros [= ->]. right. by eapply usersLists_failed.
Qed.

(** X15.  Every error of the read has one of two causes: without
    [ignore_missing], the look-up of a requested key failed or gave no user,
    and the error is the one of that key; or a user that was found has no
    ID or no user principal name, and the error names that user. *)
Theorem users_error_causes (client : UsersClient) (d : UsersConfig) (e : Error) :
  usersDataRead digest client d = Failed e →
  (ignoreMissing d = false
   ∧ ∃ v, v ∈ (requested client d).2 ∧ (requested client d).1 v = inl e)
  ∨ (∃ u, u ∈ found client d ∧ e = ErrNullIdOrUPN u
          ∧ (ID u = None ∨ UserPrincipalName u = None)).
Proof.
  apply usersDataRead_failed.
Qed.

(** X16.  The check of the expected count never fails: neither
    [usersDataRead] nor [GroupsDataRead] ever returns the
    unexpected-number error, because a loop that does not return early has
    appended one entry for each key. *)
Theorem count_check_never_fails (client : UsersClient) (d : UsersConfig)
    (gclient : aadgraph_groups.GroupsClient) (gd : aadgraph_groups.GroupsConfig)
    (a b : nat) :
  usersDataRead digest client d ≠ Failed (ErrUnexpectedNumberOfUsers a b)
  ∧ aadgraph_groups.GroupsDataRead digest gclient gd
    ≠ inl (aadgraph_groups.ErrUnexpectedNumberOfGroups a b).
Proof.
  split.
  - intros H. apply usersDataRead_failed in H as [(_ & v & _ & Hv) | (u & _ & ? & _)]; [| done].
    revert Hv. unfold requested, byObjectId, byMailNickname, byUserPrincipalName.
    repeat case_match; simpl; intros Hv; repeat case_match; simplify_eq.
  - unfold aadgraph_groups.GroupsDataRead.
    destruct (aadgraph_groups.groupsLookup gclient gd) as [e|[groups n]] eqn:Hlook.
    + intros [= ->]. revert Hlook.
      unfold aadgraph_groups.groupsLookup, expecting.
      repeat case_match; intros; simplify_eq;
        match goal with
        | H : aadgraph_groups.collect _ _ _ _ = inl _ |- _ =>
            apply groups_collect_error in H as (v & _ & _ & Hv); done
        end.
    + assert (length groups = n) as Hn.
      { revert Hlook. unfold aadgraph_groups.groupsLookup, expecting.
        repeat case_match; intros; simplify_eq; try done;
          match goal with
          | H : aadgraph_groups.collect _ _ _ _ = inr _ |- _ =>
              apply groups_collect_found in H as [-> [Hlen _]]; simpl in Hlen; done
          end. }
      unfold aadgraph_groups.groupsFinish. rewrite Hn, Nat.eqb_refl. simpl.
      destruct (aadgraph_groups.groupsLists groups [] []) as [e|[? ?]] eqn:Hl; [| done].
      intros [= ->]. by apply groupsLists_error in Hl as (g & _ & ? & _).
Qed.

(** X17.  Without [ignore_missing] the first requested key whose look-up
    fails or gives no user decides the read: its error is returned, whatever
    the keys after it would give. *)
Theorem users_first_failing_key (client : UsersClient) (d : UsersConfig)
    (pre post : list string) (v : string) (e : Error) :
  ignoreMissing d = false →
  (requested client d).2 = pre ++ v :: post →
  Forall (λ k, is_Some (match (requested client d).1 k with
                        | inr u => Some u
                        | inl _ => None
                        end)) pre →
  (requested client d).1 v = inl e →
  usersDataRead digest client d = Failed e.
Proof.
  intros Hig Hkeys Hpre Hv. unfold usersDataRead, usersLookup.
  unfold requested in Hkeys, Hpre, Hv. rewrite Hig.
  destruct (0 <? length (object_ids d));
    [| destruct (0 <? length (mail_nicknames d));
       [| destruct (0 <? length (user_principal_names d)) eqn:Hupn]];
    simpl in Hkeys, Hpre, Hv.
  1-3: by rewrite Hkeys, (collect_strict_first_error _ pre post v e [] Hpre Hv).
  apply Nat.ltb_ge in Hupn. rewrite Hkeys, length_app in Hupn. simpl in Hupn. lia.
Qed.

(** X18.  In both modes, the first user found that lacks an ID or a user
    principal name ends the read with the error that names this user, when
    the users found before it are complete. *)
Theorem users_nil_guard (client : UsersClient) (d : UsersConfig)
    (users pre post : list User) (n : nat) (u : User) :
  usersLookup client d = inr (users, n) →
  users = pre ++ u :: post →
  forallb complete pre = true →
  ID u = None ∨ UserPrincipalName u = None →
  usersDataRead digest client d = Failed (ErrNullIdOrUPN u).
Proof.
  intros Hlook -> Hpre Hu. unfold usersDataRead. rewrite Hlook. unfold usersFinish.
  destruct (ignoreMissing d) eqn:Hig; simpl.
  - by rewrite usersLists_nil_guard.
  - rewrite (usersLookup_strict_length client d _ n Hig Hlook), Nat.eqb_refl. simpl.
    by rewrite usersLists_nil_guard.
Qed.

End UsersReadMore.
End UsersMore.

Section GroupsMore.
Import aadgraph_groups.
Variable digest : string → string.

Lemma groupsLookup_requested (client : GroupsClient) (d : GroupsConfig) :
  groupsLookup client d
  = let '(look, err, keys) := requestedGroups client d in
    expecting (length keys) (collect look err keys []).
Proof.
  unfold groupsLookup, requestedGroups.
  destruct (0 <? length (names d)); [done |].
  destruct (0 <? length (object_ids d)) eqn:Hoids; [done |].
  apply Nat.ltb_ge in Hoids. destruct (object_ids d); [done | simpl in Hoids; lia].
Qed.

(** X19.  A group read that succeeds stores one name and one object id for
    each requested key, in the order of the keys: those of the group each
    key was answered with.  The names come first: the object ids are looked
    up only when no name is given. *)
Theorem groups_success_aligned (client : GroupsClient) (d : GroupsConfig) (st : GroupsState) :
  GroupsDataRead digest client d = inr st →
  let '(look, _, keys) := requestedGroups client d in
  let groups := omap (λ v, foundGroup (look v)) keys in
  length groups = length keys
  ∧ state_names st = omap DisplayName groups
  ∧ state_object_ids st = omap ObjectID groups
  ∧ length (state_names st) = length keys
  ∧ length (state_object_ids st) = length keys
  ∧ state_id st = "groups#" +:+ digest (join "-" (state_names st)).
Proof.
  unfold GroupsDataRead. rewrite groupsLookup_requested.
  destruct (requestedGroups client d) as [[look err] keys].
  destruct (collect look err keys []) as [e|groups] eqn:Hc; simpl; [done |].
  apply groups_collect_found in Hc as (-> & Hlen & _). simpl in *.
  unfold groupsFinish. rewrite Hlen, Nat.eqb_refl. simpl.
  destruct (groupsLists _ [] []) as [e|[names' oids']] eqn:Hl; [done |].
  apply groupsLists_found in Hl as (-> & -> & Hn & Ho). simpl in *.
  intros [= <-]. simpl. split_and!; (done || lia).
Qed.

(** X20.  Every error of the group read has one of two causes: the look-up
    of a requested key failed, and the error is the one of that key; or a
    group that was returned has no object id or no display name, and the
    error names that group. *)
Theorem groups_error_causes (client : GroupsClient) (d : GroupsConfig) (e : Error) :
  GroupsDataRead digest client d = inl e →
  let '(look, err, keys) := requestedGroups client d in
  (∃ v, v ∈ keys ∧ look v = LookupFailed ∧ e = err v)
  ∨ (∃ g, g ∈ omap (λ v, foundGroup (look v)) keys
          ∧ e = ErrNilObjectIDOrDisplayName g
          ∧ (ObjectID g = None ∨ DisplayName g = None)).
Proof.
  unfold GroupsDataRead. rewrite groupsLookup_requested.
  destruct (requestedGroups client d) as [[look err] keys].
  destruct (collect look err keys []) as [e'|groups] eqn:Hc; simpl.
  - intros [= ->]. left. by eapply groups_collect_error.
  - apply groups_collect_found in Hc as (-> & Hlen & _). simpl in *.
    unfold groupsFinish. rewrite Hlen, Nat.eqb_refl. simpl.
    destruct (groupsLists _ [] []) as [e'|[names' oids']] eqn:Hl; [| done].
    intros [= ->]. right. by eapply groupsLists_error.
Qed.

(** X21.  The first requested key whose look-up fails decides the group
    read: its error is returned, whatever the keys after it would give. *)
Theorem groups_first_failing_key (client : GroupsClient) (d : GroupsConfig)
    (pre post : list string) (v : string) :
  let '(look, err, keys) := requestedGroups client d in
  keys = pre ++ v :: post →
  Forall (λ k, is_Some (foundGroup (look k))) pre →
  look v = LookupFailed →
  GroupsDataRead digest client d = inl (err v).
Proof.
  unfold GroupsDataRead. rewrite groupsLookup_requested.
  destruct (requestedGroups client d) as [[look err] keys].
  intros -> Hpre Hv.
  by rewrite (groups_collect_first_error look err pre post v [] Hpre Hv).
Qed.

End GroupsMore.

(** ** Missing entries: the users read with and without [ignore_missing],
    and the groups read *)

Lemma omap_length_short {A B : Type} (f : A → option B) (l : list A) :
  length (omap f l) ≠ length l → ∃ v, v ∈ l ∧ f v = None.
Proof.
  induction l as [|a l IH]; simpl; [done |].
  destruct (f a) as [b|] eqn:Ha; simpl.
  - intros H. destruct IH as (v & Hin & Hv).
    { intros Heq. apply H. simpl. f_equal. exact Heq. }
    exists v. split; [by apply list_elem_of_further | done].
  - intros _. exists a. split; [apply list_elem_of_here | done].
Qed.

Lemma groups_collect_fails (look : string → Lookup aadgraph_groups.ADGroup)
    (err : string → aadgraph_groups.Error) (keys : list string)
    (groups : list aadgraph_groups.ADGroup) (v : string) :
  v ∈ keys → look v = LookupFailed →
  ∃ e, aadgraph_groups.collect look err keys groups = inl e.
Proof.
  revert groups. induction keys as [|k keys IH]; intros groups Hin Hv.
  - by apply elem_of_nil in Hin.
  - simpl. destruct (look k) as [g|] eqn:Hk; [| by eexists].
    apply elem_of_cons in Hin as [->|Hin]; [congruence |]. by apply IH.
Qed.

Lemma GroupsDataRead_fails (digest : string → string)
    (client : aadgraph_groups.GroupsClient) (d : aadgraph_groups.GroupsConfig) :
  let '(look, _, keys) := requestedGroups client d in
  ∀ v, v ∈ keys → look v = LookupFailed →
       ∃ e, aadgraph_groups.GroupsDataRead digest client d = inl e.
Proof.
  unfold aadgraph_groups.GroupsDataRead. rewrite groupsLookup_requested.
  destruct (requestedGroups client d) as [[look err] keys].
  intros v Hin Hv.
  destruct (groups_collect_fails look err keys [] v Hin Hv) as [e ->].
  by eexists.
Qed.

Section MissingEntries.
Import models msgraph.
Variable digest : string → string.

Lemma usersDataRead_strict_fails (client : UsersClient) (d : UsersConfig)
    (v : string) (e : Error) :
  ignoreMissing d = false →
  v ∈ (requested client d).2 → (requested client d).1 v = inl e →
  ∃ e', usersDataRead digest client d = Failed e'.
Proof.
  intros Hig Hin Hv. unfold usersDataRead, usersLookup.
  unfold requested in Hin, Hv. rewrite Hig.
  destruct (0 <? length (object_ids d));
    [| destruct (0 <? length (mail_nicknames d));
       [| destruct (0 <? length (user_principal_names d)) eqn:Hupn]];
    simpl in Hin, Hv.
  1-3: destruct (collect_strict_fails _ _ [] v e Hin Hv) as [e' ->]; by eexists.
  apply Nat.ltb_ge in Hupn.
  destruct (user_principal_names d); [by apply elem_of_nil in Hin | simpl in Hupn; lia].
Qed.

(** C8 (as amended).  With [ignore_missing] set, every look-up that fails
    or gives no user is skipped and the count is not checked: the read ends
    as the result building does on the users found, whatever the expected
    count.  It succeeds with exactly those users when each of them carries
    an ID, a user principal name and a mail nickname; it never succeeds
    when one of them lacks an ID or a user principal name, and it returns
    the error that names the first such user when the users before it are
    complete.  With the flag false or left out (the default), the read
    returns an error whenever a look-up fails or gives no user, and
    whenever the number of users found differs from the number requested.
    [GroupsDataRead] has no flag: it returns an error whenever a look-up
    fails, and whenever the number of groups found differs from the number
    requested. *)
Theorem ignore_missing_semantics (client : UsersClient) (d : UsersConfig)
    (gclient : aadgraph_groups.GroupsClient) (gd : aadgraph_groups.GroupsConfig) :
  (ignoreMissing d = true →
     (∀ n, usersDataRead digest client d = usersFinish digest true (found client d) n)
     ∧ (forallb complete (found client d) = true →
        usersDataRead digest client d
        = Done {| state_id :=
                    "users#" +:+ digest (join "-" (omap UserPrincipalName (found client d)));
                  state_object_ids := omap ID (found client d);
                  state_user_principal_names := omap UserPrincipalName (found client d);
                  state_mail_nicknames := omap MailNickname (found client d);
                  state_users := List.map userMap (found client d) |})
     ∧ (∀ u, u ∈ found client d → ID u = None ∨ UserPrincipalName u = None →
             ¬ ∃ st, usersDataRead digest client d = Done st)
     ∧ (∀ pre u post,
          found client d = pre ++ u :: post → forallb complete pre = true →
          ID u = None ∨ UserPrincipalName u = None →
          usersDataRead digest client d = Failed (ErrNullIdOrUPN u)))
  ∧ (ignoreMissing d = false →
     (∀ v e, v ∈ (requested client d).2 → (requested client d).1 v = inl e →
             ∃ e', usersDataRead digest client d = Failed e')
     ∧ (length (found client d) ≠ length (requested client d).2 →
        ∃ e', usersDataRead digest client d = Failed e'))
  ∧ (let '(look, _, keys) := requestedGroups gclient gd in
     (∀ v, v ∈ keys → look v = LookupFailed →
           ∃ e, aadgraph_groups.GroupsDataRead digest gclient gd = inl e)
     ∧ (length (omap (λ v, foundGroup (look v)) keys) ≠ length keys →
        ∃ e, aadgraph_groups.GroupsDataRead digest gclient gd = inl e)).
Proof.
  split_and!.
  - intros Hig.
    destruct (usersLookup_ignoring client d Hig) as [n Hlook].
    assert (∀ n', usersDataRead digest client d
                  = usersFinish digest true (found client d) n') as Hread.
    { intros n'. unfold usersDataRead. by rewrite Hlook, Hig. }
    split_and!.
    + done.
    + intros Hall. rewrite (Hread 0). unfold usersFinish; simpl.
      by rewrite usersLists_complete.
    + intros u Hin Hu [st Hst]. rewrite (Hread 0) in Hst.
      unfold usersFinish in Hst; simpl in Hst.
      destruct (usersLists (found client d) [] [] [] []) as [r| |] eqn:Hl; [| done..].
      apply usersLists_done_complete, complete_fields in Hl as (Hid & Hupn & _).
      rewrite Forall_forall in Hid, Hupn.
      destruct Hu as [Hu|Hu].
      * destruct (Hid u Hin) as [? ?]. congruence.
      * destruct (Hupn u Hin) as [? ?]. congruence.
    + intros pre u post Hfound Hpre Hu. rewrite (Hread 0), Hfound.
      unfold usersFinish; simpl. by rewrite usersLists_nil_guard.
  - intros Hig. split; [intros v e; by apply usersDataRead_strict_fails |].
    intros Hlen. unfold found in Hlen.
    destruct (requested client d) as [look keys] eqn:Hreq. simpl in Hlen.
    apply omap_length_short in Hlen as (v & Hin & Hv).
    destruct (look v) as [e|u] eqn:Hlook; [| done].
    apply (usersDataRead_strict_fails client d v e Hig); by rewrite Hreq.
  - pose proof (GroupsDataRead_fails digest gclient gd) as Hfails.
    destruct (requestedGroups gclient gd) as [[look err] keys].
    split; [exact Hfails |].
    intros (v & Hin & Hv)%omap_length_short.
    apply (Hfails v Hin). by destruct (look v).
Qed.

End MissingEntries.

(** ** The single user look-up *)

Section UserMore.
Import aadgraph_user.

(** X22.  The user principal name is looked up before the object id, and
    the object id before the mail nickname: the keys after the first one
    that is not empty have no influence on the read. *)
Theorem user_first_key_only (client : UsersClient) (d : UserConfig) :
  userDataRead client (firstKeyOnly d) = userDataRead client d.
Proof.
  unfold firstKeyOnly, userDataRead, userLookup.
  destruct (is_empty (user_principal_name d)) eqn:Hupn; simpl.
  - destruct (is_empty (object_id d)) eqn:Hoid; simpl; [by rewrite Hupn, Hoid |].
    by rewrite Hoid.
  - by rewrite Hupn.
Qed.

(** X23.  The read succeeds exactly when the look-up by the first key that
    is not empty gives a user that has an object id; the id stored is that
    object id, the same as the [object_id] attribute, and the attributes
    are those of that user. *)
Theorem user_success (client : UsersClient) (d : UserConfig) (st : UserState) :
  userDataRead client d = inr st ↔
  ∃ user id,
    answered client d = Some user
    ∧ ObjectID user = Some id
    ∧ st = {| state_id := id;
              state_object_id := Some id;
              state_user_principal_name := UserPrincipalName user;
              state_account_enabled := AccountEnabled user;
              state_display_name := DisplayName user;
              state_immutable_id := ImmutableID user;
              state_mail := Mail user;
              state_mail_nickname := MailNickname user;
              state_usage_location := UsageLocation user;
              state_onpremises_sam_account_name :=
                AdditionalProperties user !! "onPremisesSamAccountName";
              state_onpremises_user_principal_name :=
                AdditionalProperties user !! "onPremisesUserPrincipalName" |}.
Proof.
  unfold userDataRead, userLookup, answered.
  split.
  - repeat case_match; intros; simplify_eq;
      eexists _, _; split_and!; try done;
      match goal with H : ObjectID _ = Some _ |- _ => by rewrite H end.
  - intros (user & id & Hans & Hid & ->).
    repeat case_match; simplify_eq; try done;
      match goal with H : ObjectID _ = Some _ |- _ => by rewrite H end.
Qed.

(** X24.  The error that asks for a key is returned exactly when all three
    keys are empty. *)
Theorem user_no_key (client : UsersClient) (d : UserConfig) :
  userDataRead client d = inl ErrOneOfMustBeSupplied ↔
  user_principal_name d = "" ∧ object_id d = "" ∧ mail_nickname d = "".
Proof.
  unfold userDataRead, userLookup, is_empty.
  split.
  - repeat case_match; intros; simplify_eq;
      repeat match goal with
             | H : negb (bool_decide _) = false |- _ =>
                 apply negb_false_iff, bool_decide_eq_true in H
             end; done.
  - intros (-> & -> & ->). done.
Qed.

End UserMore.

(** ** The properties at sample data *)

Example delete_trace :
  trace (sample.holding [sample.X; sample.Y])
    (aadgraph.applicationOAuth2PermissionResourceDelete sample.delim sample.lockName
       (sample.tracked sample.dX))
  = [ELock sample.lockName sample.appId;
     EGet sample.appId (GetOk (mkApplication [sample.X; sample.Y]));
     ELog (LogDisabling sample.permX sample.appId);
     EReconcile FnDisableById;
     EPatch sample.appId [graph.disabled sample.X; sample.Y] PatchOk;
     ELog (LogRemoving sample.permX sample.appId);
     EReconcile FnRemoveById;
     EPatch sample.appId [sample.Y] PatchOk;
     EUnlock sample.lockName sample.appId].
Proof. vm_compute. reflexivity. Qed.

Example create_trace :
  run (sample.holding [sample.Y])
    (aadgraph.applicationOAuth2PermissionResourceCreateUpdate sample.delim sample.lockName
       sample.dX) []
  = ([ELock sample.lockName sample.appId;
      EGet sample.appId (GetOk (mkApplication [sample.Y]));
      EReconcile FnAdd;
      EPatch sample.appId [sample.Y; sample.X] PatchOk;
      EGet sample.appId (GetOk (mkApplication [sample.Y; sample.X]));
      EReconcile FnFindById;
      EUnlock sample.lockName sample.appId],
     (None,
      SetPermission (graph.OAuth2PermissionIdFrom sample.appId sample.permX) sample.X
        (SetId (sample.appId +:+ "/scope/" +:+ sample.permX) sample.dX))).
Proof. vm_compute. reflexivity. Qed.

(** C1 at sample data: A creates X while B creates Y, in alternation; B waits
    for the lock while A holds it, both return without error, and the
    collection ends with both X and Y. *)
Lemma concurrent_creates_witness :
  let cfg := crun UuidFailed UuidFailed sample.alternating
               (mkConfig sample.start
                  (mutate sample.delim sample.lockName CreateUpdate sample.dX)
                  (mutate sample.delim sample.lockName CreateUpdate sample.dY)) in
  ∃ rA rB,
    returned (callerA cfg) = Some rA ∧ rA.1 = None
    ∧ returned (callerB cfg) = Some rB ∧ rB.1 = None
    ∧ sample.X ∈ collection (directory (shared cfg)) sample.appId
    ∧ sample.Y ∈ collection (directory (shared cfg)) sample.appId.
Proof.
  intros cfg.
  assert (∃ rA, returned (callerA cfg) = Some rA ∧ rA.1 = None) as (rA & HrA & HA)
    by (eexists; split; vm_compute; reflexivity).
  assert (∃ rB, returned (callerB cfg) = Some rB ∧ rB.1 = None) as (rB & HrB & HB)
    by (eexists; split; vm_compute; reflexivity).
  exists rA, rB.
  destruct (concurrent_mutations_both_kept sample.delim sample.lockName
              UuidFailed UuidFailed sample.alternating sample.start CreateUpdate CreateUpdate
              sample.dX sample.dY
              (graph.OAuth2PermissionIdFrom sample.appId sample.permX)
              (graph.OAuth2PermissionIdFrom sample.appId sample.permY)
              rA rB) as [HX HY].
  - reflexivity.
  - reflexivity.
  - reflexivity.
  - vm_compute. congruence.
  - unfold sample.start; simpl. apply not_elem_of_empty.
  - exact HrA.
  - exact HrB.
  - split_and!; [exact HrA | exact HA | exact HrB | exact HB | |].
    + exact (achieved_create_elem sample.dX
               (graph.OAuth2PermissionIdFrom sample.appId sample.permX) _ (HX HA)).
    + exact (achieved_create_elem sample.dY
               (graph.OAuth2PermissionIdFrom sample.appId sample.permY) _ (HY HB)).
Defined.

(** Without the lock calls the same schedule loses X: both callers fetch the
    empty collection, A writes [X], B writes [Y] over it. *)
Example lost_update_without_lock :
  let cfg := crun UuidFailed UuidFailed sample.alternating
               (mkConfig sample.start
                  (unlocked (mutate sample.delim sample.lockName CreateUpdate sample.dX))
                  (unlocked (mutate sample.delim sample.lockName CreateUpdate sample.dY))) in
  fst <$> returned (callerA cfg) = Some None
  ∧ fst <$> returned (callerB cfg) = Some None
  ∧ collection (directory (shared cfg)) sample.appId = [sample.Y].
Proof. vm_compute. done. Qed.

(** C2 as stated fails: in the delete of a tracked permission the two writes
    are events 4 and 7 of the trace, and neither of the two events between
    them releases the lock. *)
Lemma delete_holds_lock_between_writes :
  ¬ released_between_writes
      (trace (sample.holding [sample.X; sample.Y])
         (aadgraph.applicationOAuth2PermissionResourceDelete sample.delim sample.lockName
            (sample.tracked sample.dX))).
Proof.
  rewrite delete_trace. intros H.
  destruct (H 4 7 _ _ ltac:(lia) eq_refl eq_refl eq_refl eq_refl)
    as (m & em & Hm & Hlook & Hunlock).
  assert (m = 5 ∨ m = 6) as [-> | ->] by lia; simpl in Hlook; by simplify_eq.
Qed.

(** C4 as stated fails for delete: the parent is reported missing, and the
    delete returns no error. *)
Lemma delete_of_missing_parent_succeeds :
  let op := mutate sample.delim sample.lockName Delete (sample.tracked sample.dX) in
  ¬ (first_fetch (trace sample.missing op) = Some GetNotFound →
     is_Some (result sample.missing op).1).
Proof.
  intros op H. destruct H as [e He]; [by vm_compute |]. by vm_compute in He.
Qed.

(** C4 at sample data: the parent is missing; a create stops with the
    application-not-found error, a delete with success, and neither
    reconciles or writes. *)
Lemma parent_missing_witness :
  (first_fetch (trace sample.missing
                  (mutate sample.delim sample.lockName CreateUpdate sample.dX))
   = Some GetNotFound
   ∧ (result sample.missing
        (mutate sample.delim sample.lockName CreateUpdate sample.dX)).1
     = Some (ErrApplicationNotFound sample.appId))
  ∧ (first_fetch (trace sample.missing
                    (mutate sample.delim sample.lockName Delete (sample.tracked sample.dX)))
     = Some GetNotFound
     ∧ (result sample.missing
          (mutate sample.delim sample.lockName Delete (sample.tracked sample.dX))).1
       = None).
Proof.
  split; (split; [by vm_compute |]).
  - apply (parent_missing_stops_mutation sample.delim sample.lockName CreateUpdate
             sample.missing sample.dX). by vm_compute.
  - apply (parent_missing_stops_mutation sample.delim sample.lockName Delete
             sample.missing (sample.tracked sample.dX)). by vm_compute.
Defined.

(** C5 at sample data: an update of X against a collection that holds only
    Y. *)
Lemma update_absent_witness :
  let op := aadgraph.applicationOAuth2PermissionResourceCreateUpdate
              sample.delim sample.lockName (sample.tracked sample.dX) in
  (result (sample.holding [sample.Y]) op).1
  = Some (ErrPermissionNotFound sample.permX sample.appId)
  ∧ List.filter is_mutation (trace (sample.holding [sample.Y]) op) = [].
Proof.
  apply (update_absent_permission_not_found sample.delim sample.lockName
           (sample.holding [sample.Y]) (sample.tracked sample.dX) sample.permX
           (mkApplication [sample.Y]));
    by vm_compute.
Defined.

(** C6 at sample data: a read of tracked X when the application is gone. *)
Lemma read_absent_witness :
  result sample.missing
    (aadgraph.applicationOAuth2PermissionResourceRead sample.delim (sample.tracked sample.dX))
  = (None, SetId "" (sample.tracked sample.dX)).
Proof.
  apply (read_absent_clears_identity sample.delim sample.missing (sample.tracked sample.dX)
           (graph.OAuth2PermissionIdFrom sample.appId sample.permX)).
  - by vm_compute.
  - left. by vm_compute.
Defined.

(** C7 at sample data: a create of X against a collection that holds X. *)
Lemma create_existing_witness :
  let op := aadgraph.applicationOAuth2PermissionResourceCreateUpdate
              sample.delim sample.lockName sample.dX in
  (result (sample.holding [sample.X]) op).1
  = Some (ErrImportAsExists "azuread_application_oauth2_permission"
            (sample.appId +:+ "/scope/" +:+ sample.permX))
  ∧ List.filter is_patch (trace (sample.holding [sample.X]) op) = [].
Proof.
  apply (create_existing_permission_import_collision sample.delim sample.lockName
           (sample.holding [sample.X]) sample.dX sample.permX (mkApplication [sample.X]));
    [by vm_compute | by vm_compute | by vm_compute |].
  vm_compute. by eexists.
Defined.


(** C8 as stated fails: with [ignore_missing] set, the look-up of a user the
    directory returns without an ID is not skipped, and the read returns the
    error of the nil guard. *)
Lemma ignore_missing_read_can_fail :
  let d := sample.lookFor ["id-bob"; "id-ghost"] (Some true) in
  msgraph.ignoreMissing d = true
  ∧ msgraph.found sample.usersClient d = [sample.noId]
  ∧ ¬ ∃ st, msgraph.usersDataRead sample.digest sample.usersClient d = Done st.
Proof.
  split_and!; [done | done |]. intros [st H]. by vm_compute in H.
Qed.

(** C8 at sample data: alice is there, bob has no ID and "id-ghost" is
    not there.  With the flag the read of alice and the ghost gives alice
    alone, and the read of alice and bob returns the error of the nil guard;
    with the flag left out (the default) the read of alice and the ghost
    fails.  The read of three groups of which the second is unknown
    fails. *)
Lemma ignore_missing_witness :
  msgraph.usersDataRead sample.digest sample.usersClient
    (sample.lookFor ["id-alice"; "id-ghost"] (Some true))
  = Done {| msgraph.state_id := "users#alice@example.com";
            msgraph.state_object_ids := ["id-alice"];
            msgraph.state_user_principal_names := ["alice@example.com"];
            msgraph.state_mail_nicknames := ["alice"];
            msgraph.state_users := [msgraph.userMap sample.alice] |}
  ∧ msgraph.usersDataRead sample.digest sample.usersClient
      (sample.lookFor ["id-alice"; "id-ghost"; "id-bob"] (Some true))
    = Failed (msgraph.ErrNullIdOrUPN sample.noId)
  ∧ (∃ e, msgraph.usersDataRead sample.digest sample.usersClient
            (sample.lookFor ["id-alice"; "id-ghost"] None) = Failed e)
  ∧ (∃ e, aadgraph_groups.GroupsDataRead sample.digest cases.groupsClient
            (cases.groupsNamed ["Admins"; "Nobody"; "Ops"]) = inl e).
Proof.
  destruct (ignore_missing_semantics sample.digest sample.usersClient
              (sample.lookFor ["id-alice"; "id-ghost"] (Some true))
              cases.groupsClient (cases.groupsNamed ["Admins"; "Nobody"; "Ops"]))
    as (Hlenient & _ & _ & Hgroups).
  destruct (Hlenient eq_refl) as (_ & Hdone & _ & _).
  destruct (ignore_missing_semantics sample.digest sample.usersClient
              (sample.lookFor ["id-alice"; "id-ghost"; "id-bob"] (Some true))
              cases.groupsClient (cases.groupsNamed []))
    as (Hguard & _ & _).
  destruct (Hguard eq_refl) as (_ & _ & _ & Hnil).
  destruct (ignore_missing_semantics sample.digest sample.usersClient
              (sample.lookFor ["id-alice"; "id-ghost"] None)
              cases.groupsClient (cases.groupsNamed []))
    as (_ & Hstrict & _).
  destruct (Hstrict eq_refl) as [_ Hcount].
  split_and!.
  - rewrite Hdone by done. reflexivity.
  - apply (Hnil [sample.alice] sample.noId []); [reflexivity | reflexivity | by left].
  - apply Hcount. vm_compute. lia.
  - apply Hgroups. vm_compute. lia.
Defined.

(** C10 at sample data: carol has an ID and a user principal name and no
    mail nickname. *)
Lemma mail_nickname_witness :
  msgraph.usersDataRead sample.digest sample.usersClient
    (sample.lookFor ["id-alice"; "id-carol"] None)
  = Panic.
Proof.
  destruct (mail_nickname_dereferenced_unguarded sample.digest sample.usersClient
              (sample.lookFor ["id-alice"; "id-carol"] None)) as (_ & Hpanic & _).
  apply (Hpanic [sample.alice; sample.noNick] 2 [sample.alice] sample.noNick []);
    [reflexivity | reflexivity | reflexivity | by eexists | by eexists | reflexivity].
Defined.

(** ** More properties at sample data *)

(** X4 at sample data: a create of X against a collection that holds Y
    returns no error and has made one accepted write. *)
Lemma success_means_committed_witness :
  let op := mutate sample.delim sample.lockName CreateUpdate sample.dX in
  (result (sample.holding [sample.Y]) op).1 = None
  ∧ ∃ perms, List.filter is_patch (trace (sample.holding [sample.Y]) op)
             = [EPatch sample.appId perms PatchOk].
Proof.
  intros op. split; [by vm_compute |].
  apply (success_means_committed sample.delim sample.lockName CreateUpdate
           (sample.holding [sample.Y]) sample.dX).
  by vm_compute.
Defined.

(** X6 at sample data: a read that cannot reach the directory returns an
    error and the data as given. *)
Lemma failed_read_keeps_data_witness :
  let op := aadgraph.applicationOAuth2PermissionResourceRead sample.delim
              (sample.tracked sample.dX) in
  is_Some (result cases.failing op).1
  ∧ (result cases.failing op).2 = sample.tracked sample.dX.
Proof.
  intros op.
  assert (is_Some (result cases.failing op).1) as Herr by (vm_compute; by eexists).
  split; [exact Herr |].
  exact (proj2 (delete_and_failed_read_keep_data sample.delim sample.lockName
                  cases.failing (sample.tracked sample.dX)) Herr).
Defined.

(** X7 at sample data: a delete that cannot reach the directory. *)
Lemma fetch_failure_witness :
  let op := operation sample.delim sample.lockName OpDelete (sample.tracked sample.dX) in
  first_fetch (trace cases.failing op) = Some GetFailed
  ∧ (∃ objectId, (result cases.failing op).1 = Some (ErrRetrievingApplication objectId))
  ∧ (result cases.failing op).2 = sample.tracked sample.dX
  ∧ List.filter is_reconcile (trace cases.failing op) = []
  ∧ List.filter is_patch (trace cases.failing op) = [].
Proof.
  intros op. split; [by vm_compute |].
  apply (fetch_failure_stops sample.delim sample.lockName OpDelete cases.failing
           (sample.tracked sample.dX)).
  by vm_compute.
Defined.

(** X8 at sample data: a create of X whose write is refused. *)
Lemma refused_write_witness :
  let op := aadgraph.applicationOAuth2PermissionResourceCreateUpdate
              sample.delim sample.lockName sample.dX in
  existsb is_refused_write (trace (cases.refusing [sample.Y]) op) = true
  ∧ result (cases.refusing [sample.Y]) op
    = (Some (ErrPatchingApplication sample.appId), sample.dX)
  ∧ length (List.filter is_get (trace (cases.refusing [sample.Y]) op)) = 1
  ∧ last (trace (cases.refusing [sample.Y]) op)
    = Some (EUnlock sample.lockName sample.appId).
Proof.
  intros op. split; [by vm_compute |].
  apply (refused_write_stops sample.delim sample.lockName (cases.refusing [sample.Y])
           sample.dX).
  by vm_compute.
Defined.

(** X9 at sample data: after a turn of A and a turn of B, A is at its fetch
    and holds the lock, and B is not at a call of the directory. *)
Lemma directory_calls_witness :
  let cfg := crun UuidFailed UuidFailed [sample.turn true; sample.turn false]
               (mkConfig sample.start
                  (mutate sample.delim sample.lockName CreateUpdate sample.dX)
                  (mutate sample.delim sample.lockName CreateUpdate sample.dY)) in
  at_directory (callerA cfg) = true
  ∧ (sample.lockName, sample.appId) ∈ held (shared cfg)
  ∧ at_directory (callerA cfg) && at_directory (callerB cfg) = false.
Proof.
  intros cfg.
  assert ((sample.lockName, sample.appId) ∉ held sample.start) as Hfree
    by (unfold sample.start; simpl; apply not_elem_of_empty).
  assert (at_directory (callerA cfg) = true) as HA by (by vm_compute).
  pose proof (directory_calls_exclude_each_other sample.delim sample.lockName
                UuidFailed UuidFailed CreateUpdate CreateUpdate sample.dX sample.dY
                sample.appId eq_refl eq_refl
                [sample.turn true; sample.turn false] sample.start Hfree)
    as [Hheld Hexcl].
  split_and!; [exact HA | | exact Hexcl].
  apply Hheld. apply orb_true_iff. left. exact HA.
Defined.

(** X10 at sample data: the two creates in alternation; both have
    returned, and the lock of the application is free. *)
Lemma lock_free_witness :
  let cfg := crun UuidFailed UuidFailed sample.alternating
               (mkConfig sample.start
                  (mutate sample.delim sample.lockName CreateUpdate sample.dX)
                  (mutate sample.delim sample.lockName CreateUpdate sample.dY)) in
  is_Some (returned (callerA cfg))
  ∧ is_Some (returned (callerB cfg))
  ∧ (sample.lockName, sample.appId) ∉ held (shared cfg).
Proof.
  intros cfg.
  assert (∃ rA, returned (callerA cfg) = Some rA) as [rA HrA]
    by (eexists; vm_compute; reflexivity).
  assert (∃ rB, returned (callerB cfg) = Some rB) as [rB HrB]
    by (eexists; vm_compute; reflexivity).
  assert ((sample.lockName, sample.appId) ∉ held sample.start) as Hfree
    by (unfold sample.start; simpl; apply not_elem_of_empty).
  split_and!; [by exists rA | by exists rB |].
  exact (lock_free_after_return sample.delim sample.lockName
           UuidFailed UuidFailed CreateUpdate CreateUpdate sample.dX sample.dY
           sample.appId eq_refl eq_refl sample.alternating sample.start rA rB
           Hfree HrA HrB).
Defined.

(** X11 at sample data: a create on one application and a create on
    another, in alternation. *)
Lemma different_parents_witness :
  sample.appId ≠ cases.otherApp
  ∧ 10 ≤ turns_of_first sample.alternating
  ∧ is_Some (returned (callerA
               (crun UuidFailed UuidFailed sample.alternating
                  (mkConfig sample.start
                     (mutate sample.delim sample.lockName CreateUpdate sample.dX)
                     (mutate sample.delim sample.lockName CreateUpdate cases.dZ))))).
Proof.
  assert (sample.appId ≠ cases.otherApp) as Hne by (by vm_compute).
  assert (10 ≤ turns_of_first sample.alternating) as Hturns by (vm_compute; lia).
  split_and!; [exact Hne | exact Hturns |].
  apply (different_parents_do_not_wait sample.delim sample.lockName UuidFailed UuidFailed
           sample.alternating sample.start CreateUpdate CreateUpdate sample.dX cases.dZ
           sample.appId cases.otherApp eq_refl eq_refl Hne).
  - unfold sample.start; simpl. apply not_elem_of_empty.
  - exact Hturns.
Defined.

(** X14 at sample data: a read of one complete user. *)
Lemma users_success_witness :
  ∃ st,
    msgraph.usersDataRead sample.digest sample.usersClient
      (sample.lookFor ["id-alice"] None) = Done st
    ∧ msgraph.state_object_ids st = ["id-alice"]
    ∧ length (msgraph.state_users st) = 1.
Proof.
  eexists. split; [vm_compute; reflexivity |].
  match goal with
  | |- context [msgraph.state_object_ids ?st] =>
      pose proof (users_success_aligned sample.digest sample.usersClient
                    (sample.lookFor ["id-alice"] None) st eq_refl) as H
  end.
  destruct H as (_ & _ & _ & _ & _ & Hlen & _).
  split; [reflexivity | exact Hlen].
Defined.

(** X15 at sample data: a strict read with a key the directory does not
    know. *)
Lemma users_error_witness :
  let d := sample.lookFor ["id-alice"; "nobody"] None in
  msgraph.usersDataRead sample.digest sample.usersClient d
  = Failed (msgraph.ErrFindingUserWithID "nobody")
  ∧ ((msgraph.ignoreMissing d = false
      ∧ ∃ v, v ∈ (msgraph.requested sample.usersClient d).2
             ∧ (msgraph.requested sample.usersClient d).1 v
               = inl (msgraph.ErrFindingUserWithID "nobody"))
     ∨ (∃ u, u ∈ msgraph.found sample.usersClient d
             ∧ msgraph.ErrFindingUserWithID "nobody" = msgraph.ErrNullIdOrUPN u
             ∧ (models.ID u = None ∨ models.UserPrincipalName u = None))).
Proof.
  intros d. split; [by vm_compute |].
  apply (users_error_causes sample.digest sample.usersClient d).
  by vm_compute.
Defined.

(** X17 at sample data: the second of three keys is unknown. *)
Lemma users_first_failing_key_witness :
  msgraph.usersDataRead sample.digest sample.usersClient
    (sample.lookFor ["id-alice"; "nobody"; "id-carol"] None)
  = Failed (msgraph.ErrFindingUserWithID "nobody").
Proof.
  apply (users_first_failing_key sample.digest sample.usersClient
           (sample.lookFor ["id-alice"; "nobody"; "id-carol"] None)
           ["id-alice"] ["id-carol"] "nobody").
  - reflexivity.
  - reflexivity.
  - apply Forall_cons; split; [vm_compute; by eexists | apply Forall_nil; exact I].
  - by vm_compute.
Defined.

(** X18 at sample data: the second user found has no ID. *)
Lemma users_nil_guard_witness :
  msgraph.usersDataRead sample.digest sample.usersClient
    (sample.lookFor ["id-alice"; "id-bob"] (Some true))
  = Failed (msgraph.ErrNullIdOrUPN sample.noId).
Proof.
  apply (users_nil_guard sample.digest sample.usersClient
           (sample.lookFor ["id-alice"; "id-bob"] (Some true))
           [sample.alice; sample.noId] [sample.alice] [] 2 sample.noId).
  - by vm_compute.
  - reflexivity.
  - by vm_compute.
  - left. reflexivity.
Defined.

(** X19 at sample data: a read of two groups by name. *)
Lemma groups_success_witness :
  ∃ st,
    aadgraph_groups.GroupsDataRead sample.digest cases.groupsClient
      (cases.groupsNamed ["Admins"; "Ops"]) = inr st
    ∧ aadgraph_groups.state_names st = ["Admins"; "Ops"]
    ∧ length (aadgraph_groups.state_object_ids st) = 2.
Proof.
  eexists. split; [vm_compute; reflexivity |].
  match goal with
  | |- context [aadgraph_groups.state_names ?st] =>
      pose proof (groups_success_aligned sample.digest cases.groupsClient
                    (cases.groupsNamed ["Admins"; "Ops"]) st eq_refl) as H
  end.
  destruct H as (_ & _ & _ & _ & Hlen & _).
  split; [reflexivity | exact Hlen].
Defined.

(** X20 at sample data: a read by object id of a group without a name. *)
Lemma groups_error_witness :
  let d := {| aadgraph_groups.names := [];
              aadgraph_groups.object_ids := ["g-admins"; "g-unnamed"] |} in
  aadgraph_groups.GroupsDataRead sample.digest cases.groupsClient d
  = inl (aadgraph_groups.ErrNilObjectIDOrDisplayName cases.unnamed)
  ∧ ∃ g, aadgraph_groups.ErrNilObjectIDOrDisplayName cases.unnamed
         = aadgraph_groups.ErrNilObjectIDOrDisplayName g
         ∧ (aadgraph_groups.ObjectID g = None ∨ aadgraph_groups.DisplayName g = None).
Proof.
  intros d.
  assert (aadgraph_groups.GroupsDataRead sample.digest cases.groupsClient d
          = inl (aadgraph_groups.ErrNilObjectIDOrDisplayName cases.unnamed)) as Hread
    by (by vm_compute).
  split; [exact Hread |].
  destruct (groups_error_causes sample.digest cases.groupsClient d _ Hread)
    as [(v & _ & _ & Hv) | (g & _ & Hg & Hnil)].
  - vm_compute in Hv. discriminate Hv.
  - by exists g.
Defined.

(** X21 at sample data: the second of three names is unknown. *)
Lemma groups_first_failing_key_witness :
  aadgraph_groups.GroupsDataRead sample.digest cases.groupsClient
    (cases.groupsNamed ["Admins"; "Nobody"; "Ops"])
  = inl (aadgraph_groups.ErrFindingGroupWithDisplayName "Nobody").
Proof.
  apply (groups_first_failing_key sample.digest cases.groupsClient
           (cases.groupsNamed ["Admins"; "Nobody"; "Ops"]) ["Admins"] ["Ops"] "Nobody").
  - reflexivity.
  - apply Forall_cons; split; [vm_compute; by eexists | apply Forall_nil; exact I].
  - by vm_compute.
Defined.
